(** * Image gallery core: navigator, image cache and loader

    A shallow embedding of the three library classes of the gallery
    (UINavigator, ImageCache, ImageLoader) and the properties their
    specification states about them.

    C++ [int] values are integers of [Z]; arithmetic that can leave the
    32-bit range is written with its two's-complement wrap-around.  Qt
    signals are values of an inductive type, and a method returns, next to
    its result and the new object state, the list of signals it emitted
    before returning. *)

From Stdlib Require Import ZArith Lia Bool String List.
From stdpp Require Import gmap strings list pretty.
Import ListNotations.

Local Open Scope Z_scope.

(** ** 32-bit signed integers *)

Module Int.

Definition INT_MIN : Z := -2147483648.
Definition INT_MAX : Z := 2147483647.

Definition in_range (z : Z) : Prop := INT_MIN <= z <= INT_MAX.

(** Reduction of an integer into the 32-bit signed range. *)
Definition wrap (z : Z) : Z := (z + 2147483648) mod 4294967296 - 2147483648.

Definition add (a b : Z) : Z := wrap (a + b).
Definition sub (a b : Z) : Z := wrap (a - b).

(** [a % b] of C++: the quotient is truncated toward zero, so the result
    takes the sign of [a]. *)
Definition rem (a b : Z) : Z := Z.rem a b.

End Int.

(** ** UINavigator (uinavigator.cpp) *)

Module UINavigator.

Record t : Type := mk {
  m_currentImageId : Z;
  m_maxImageId : Z
}.

Inductive signal : Type :=
| imageIdChanged (newId : Z).

(** What a member function leaves behind: its return value, the object
    afterwards and the signals emitted, oldest first. *)
Record outcome (R : Type) : Type := Outcome {
  ret : R;
  post : t;
  emitted : list signal
}.
Arguments Outcome {R} _ _ _.
Arguments ret {R} _.
Arguments post {R} _.
Arguments emitted {R} _.

(** UINavigator::UINavigator(initialImageId, maxImageId) *)
Definition ctor (initialImageId maxImageId : Z) : t :=
  let cur := initialImageId in
  let cur := if cur <? 0 then 0 else cur in
  let cur := if cur >? maxImageId then maxImageId else cur in
  {| m_currentImageId := cur; m_maxImageId := maxImageId |}.

Definition currentImageId (n : t) : Z := m_currentImageId n.
Definition maxImageId (n : t) : Z := m_maxImageId n.

(** UINavigator::setMaxImageId(maxId) *)
Definition setMaxImageId (maxId : Z) (n : t) : outcome unit :=
  let maxId := if maxId <? 0 then 0 else maxId in
  if negb (m_maxImageId n =? maxId) then
    if m_currentImageId n >? maxId then
      Outcome tt {| m_currentImageId := maxId; m_maxImageId := maxId |}
              [imageIdChanged maxId]
    else
      Outcome tt {| m_currentImageId := m_currentImageId n; m_maxImageId := maxId |} []
  else Outcome tt n [].

(** UINavigator::next() *)
Definition next (n : t) : outcome bool :=
  if m_maxImageId n <? 0 then Outcome false n []
  else
    let cur := Int.rem (Int.add (m_currentImageId n) 1) (Int.add (m_maxImageId n) 1) in
    Outcome true {| m_currentImageId := cur; m_maxImageId := m_maxImageId n |}
            [imageIdChanged cur].

(** UINavigator::previous() *)
Definition previous (n : t) : outcome bool :=
  if m_maxImageId n <? 0 then Outcome false n []
  else
    let cur :=
      if m_currentImageId n =? 0 then m_maxImageId n
      else Int.sub (m_currentImageId n) 1 in
    Outcome true {| m_currentImageId := cur; m_maxImageId := m_maxImageId n |}
            [imageIdChanged cur].

(** The states an object can be in: built by the constructor from two
    [int] arguments, then changed only by the three mutating members. *)
Inductive reachable : t -> Prop :=
| reach_ctor initialImageId maxImageId :
    Int.in_range initialImageId -> Int.in_range maxImageId ->
    reachable (ctor initialImageId maxImageId)
| reach_next n : reachable n -> reachable (post (next n))
| reach_previous n : reachable n -> reachable (post (previous n))
| reach_setMaxImageId maxId n :
    Int.in_range maxId -> reachable n -> reachable (post (setMaxImageId maxId n)).

(** The same, for objects whose constructor was given a non-negative
    maximum. *)
Inductive reachable_nonneg : t -> Prop :=
| reachn_ctor initialImageId maxImageId :
    Int.in_range initialImageId -> Int.in_range maxImageId -> 0 <= maxImageId ->
    reachable_nonneg (ctor initialImageId maxImageId)
| reachn_next n : reachable_nonneg n -> reachable_nonneg (post (next n))
| reachn_previous n : reachable_nonneg n -> reachable_nonneg (post (previous n))
| reachn_setMaxImageId maxId n :
    Int.in_range maxId -> reachable_nonneg n ->
    reachable_nonneg (post (setMaxImageId maxId n)).

(** The invariant of the data model, on states with images. *)
Definition in_bounds (n : t) : Prop :=
  0 <= m_currentImageId n <= m_maxImageId n /\ m_maxImageId n <= Int.INT_MAX.

(** The invariant as the specification words it. *)
Definition spec_invariant (n : t) : Prop :=
  (0 <= m_maxImageId n -> 0 <= m_currentImageId n <= m_maxImageId n) /\
  (m_maxImageId n < 0 ->
     m_currentImageId n = 0 /\
     next n = Outcome false n [] /\ previous n = Outcome false n []).

(** n-fold application of [next], collecting the identifiers announced. *)
Fixpoint next_times (k : nat) (n : t) : t * list Z :=
  match k with
  | O => (n, [])
  | S k' =>
      let n1 := post (next n) in
      let '(n2, ids) := next_times k' n1 in
      (n2, m_currentImageId n1 :: ids)
  end.

End UINavigator.

(** ** The part of Qt the gallery relies on *)

Record QSize : Type := mkQSize {
  width : Z;
  height : Z
}.

(** QSize::isEmpty(): either dimension is zero or negative. *)
Definition QSize_isEmpty (s : QSize) : bool := (width s <? 1) || (height s <? 1).

(** The image operations the cache and the loader call.  [QImage_load p]
    is the image [QImage::load] leaves behind for the file at [p], null
    when the file cannot be decoded; [QImage_painted size id] is
    [QImage(size, Format_RGB32)] filled with #444444 and with the decimal
    [id] drawn centred in white bold text; [QImage_scaled img size] is
    [img.scaled(size, Qt::KeepAspectRatio, Qt::SmoothTransformation)]. *)
Class QtImage (QImage : Type) : Type := {
  QImage_null : QImage;
  isNull : QImage -> bool;
  QImage_load : string -> QImage;
  QImage_painted : QSize -> Z -> QImage;
  QImage_scaled : QImage -> QSize -> QImage;
  isNull_QImage_null : isNull QImage_null = true
}.

(** A small concrete image model, used to run the code on examples: an
    image is null or a bitmap of positive size that remembers where its
    pixels came from.  Files are listed with the size they decode to; a
    file that is not listed does not decode. *)
Module Bitmap.

Inductive origin : Type :=
| FromFile (path : string)
| Numbered (id : Z).

Inductive t : Type :=
| Null
| Pixels (size : QSize) (src : origin).

Definition is_null (b : t) : bool :=
  match b with Null => true | Pixels _ _ => false end.

(** QImage(size, format): no pixel buffer is allocated for an empty size,
    and the image is null. *)
Definition create (size : QSize) (src : origin) : t :=
  if QSize_isEmpty size then Null else Pixels size src.

Fixpoint decode (disk : list (string * QSize)) (path : string) : t :=
  match disk with
  | [] => Null
  | (p, size) :: rest =>
      if String.eqb p path then create size (FromFile path) else decode rest path
  end.

(** The size QImage::scaled computes: QSize::scaled(bound,
    Qt::KeepAspectRatio), each dimension at least one pixel. *)
Definition fit (size bound : QSize) : QSize :=
  let rw := height bound * width size / height size in
  let fitted :=
    if rw <=? width bound then mkQSize rw (height bound)
    else mkQSize (width bound) (width bound * height size / width size) in
  mkQSize (Z.max (width fitted) 1) (Z.max (height fitted) 1).

(** QImage::scaled: null for a null image or an empty bound. *)
Definition scaled (b : t) (bound : QSize) : t :=
  match b with
  | Null => Null
  | Pixels size src => if QSize_isEmpty bound then Null else Pixels (fit size bound) src
  end.

Definition qt (disk : list (string * QSize)) : QtImage t := {|
  QImage_null := Null;
  isNull := is_null;
  QImage_load := decode disk;
  QImage_painted := fun size id => create size (Numbered id);
  QImage_scaled := scaled;
  isNull_QImage_null := eq_refl
|}.

End Bitmap.

(** QImage::scaled first computes the size of the result -- with
    Qt::KeepAspectRatio, the largest size of the image's proportions that
    fits the bound, at least one pixel each way -- and returns the image
    itself when that is the size the image has.  An image made at [size]
    and scaled to [size] is such a case. *)
Definition scaled_keeps_own_size {QImage : Type} `{!QtImage QImage} : Prop :=
  forall size id,
    isNull (QImage_painted size id) = false ->
    QImage_scaled (QImage_painted size id) size = QImage_painted size id.

(** ** ImageCache (imagecache.cpp) *)

Module ImageCache.
Section WithImages.
Context {QImage : Type} `{!QtImage QImage}.

(** The object is its one member, [QHash<int, QImage> m_imageCache]. *)
Local Abbreviation t := (gmap Z QImage).

(** ImageCache::ImageCache() *)
Definition ctor : t := ∅.

(** ImageCache::contains(id) *)
Definition contains (id : Z) (c : t) : bool := bool_decide (is_Some (c !! id)).

(** QHash::value(id): the stored value, or a default-constructed one. *)
Definition value (id : Z) (c : t) : QImage := default QImage_null (c !! id).

(** ImageCache::setImage(id, image) *)
Definition setImage (id : Z) (image : QImage) (c : t) : t :=
  if isNull image then c else <[id := image]> c.

(** ImageCache::getImage(id) *)
Definition getImage (id : Z) (c : t) : QImage :=
  if contains id c then value id c else QImage_null.

(** ImageCache::removeImage(id); the two branches differ in what they log. *)
Definition removeImage (id : Z) (c : t) : t := delete id c.

(** ImageCache::clear() *)
Definition clear (c : t) : t := ∅.

(** The calls that change a cache. *)
Inductive op : Type :=
| SetImage (id : Z) (image : QImage)
| RemoveImage (id : Z)
| Clear.

Definition run_op (o : op) (c : t) : t :=
  match o with
  | SetImage id image => setImage id image c
  | RemoveImage id => removeImage id c
  | Clear => clear c
  end.

Definition run_ops (os : list op) (c : t) : t :=
  fold_left (fun acc o => run_op o acc) os c.

(** [keeps id o]: the call neither removes [id], nor clears the cache, nor
    overwrites the entry of [id] (a null image overwrites nothing). *)
Definition keeps (id : Z) (o : op) : bool :=
  match o with
  | SetImage id' image => negb (id' =? id) || isNull image
  | RemoveImage id' => negb (id' =? id)
  | Clear => false
  end.

(** No stored image is null. *)
Definition no_null_entry (c : t) : Prop :=
  forall id image, c !! id = Some image -> isNull image = false.

End WithImages.
End ImageCache.

(** ** ImageLoader (imageloader.cpp) *)

Module ImageLoader.
Section WithImages.
Context {QImage : Type} `{!QtImage QImage}.

(** The members of the object.  [m_imageCache] is a pointer: [None] is
    the null pointer the constructor tolerates, [Some c] points to the
    cache whose present content is [c]. *)
Record t : Type := mk {
  m_imageDirPath : string;
  m_maxConfiguredImages : Z;
  m_maxPreviewSize : QSize;
  m_imagePaths : list string;
  m_imageCache : option (gmap Z QImage)
}.

Inductive signal : Type :=
| imageLoaded (id : Z) (image : QImage)
| loadingError (id : Z) (errorMessage : string).

(** The identifier a notification carries. *)
Definition signal_id (s : signal) : Z :=
  match s with
  | imageLoaded id _ => id
  | loadingError id _ => id
  end.

(** ImageLoader::ImageLoader(...), given the files populateImagePaths()
    found in the directory (none when the directory does not exist). *)
Definition ctor (imageDirPath : string) (maxImages : Z) (maxPreviewSize : QSize)
    (cache : option (gmap Z QImage)) (found : list string) : t :=
  {| m_imageDirPath := imageDirPath;
     m_maxConfiguredImages := maxImages;
     m_maxPreviewSize := maxPreviewSize;
     m_imagePaths := found;
     m_imageCache := cache |}.

(** m_imagePaths.size() *)
Definition size (l : t) : Z := Z.of_nat (length (m_imagePaths l)).

(** m_imagePaths.at(id), for an index inside the table. *)
Definition at_ (id : Z) (l : t) : string :=
  default EmptyString (m_imagePaths l !! Z.to_nat id).

(** ImageLoader::generatePlaceholderImage(id) *)
Definition generatePlaceholderImage (id : Z) (l : t) : QImage :=
  QImage_painted (m_maxPreviewSize l) id.

(** ImageLoader::imageCount(); the maximum is returned as an [int]. *)
Definition imageCount (l : t) : Z :=
  Int.wrap (Z.max (size l) (m_maxConfiguredImages l)).

(** [m_imageCache && m_imageCache->contains(id)] *)
Definition cached (id : Z) (l : t) : bool :=
  match m_imageCache l with
  | Some c => ImageCache.contains id c
  | None => false
  end.

Definition out_of_bounds (id : Z) (l : t) : bool :=
  (id <? 0) || (id >=? imageCount l).

(** The loader together with the single-shot timers that have been
    started and have not fired yet, oldest first; a timer is the closure
    of loadImageAsync, which captures the requested id. *)
Record process : Type := mkProcess {
  self : t;
  timers : list Z
}.

(** ImageLoader::loadImageAsync(id): the signals emitted before the call
    returns, and the process afterwards. *)
Definition loadImageAsync (id : Z) (p : process) : process * list signal :=
  let l := self p in
  if out_of_bounds id l then
    (p, [loadingError id "Image ID out of bounds."%string])
  else if cached id l then
    (p, [imageLoaded id (match m_imageCache l with
                         | Some c => ImageCache.getImage id c
                         | None => QImage_null
                         end)])
  else
    ({| self := l; timers := timers p ++ [id] |}, []).

(** Step 2 of the closure: the image read from disk or generated. *)
Definition obtain (id : Z) (l : t) : QImage :=
  if id <? size l then
    let loadedImage := QImage_load (at_ id l) in
    if isNull loadedImage then generatePlaceholderImage id l else loadedImage
  else generatePlaceholderImage id l.

(** The closure started by loadImageAsync, run when its timer fires. *)
Definition deferred (id : Z) (l : t) : t * list signal :=
  let loadedImage := obtain id l in
  if negb (isNull loadedImage) then
    let loadedImage := QImage_scaled loadedImage (m_maxPreviewSize l) in
    let l' :=
      match m_imageCache l with
      | Some c =>
          {| m_imageDirPath := m_imageDirPath l;
             m_maxConfiguredImages := m_maxConfiguredImages l;
             m_maxPreviewSize := m_maxPreviewSize l;
             m_imagePaths := m_imagePaths l;
             m_imageCache := Some (ImageCache.setImage id loadedImage c) |}
      | None => l
      end in
    (l', [imageLoaded id loadedImage])
  else
    (l, [loadingError id "Failed to load or generate image."%string]).

(** The event loop fires the pending timers in the order they were
    started; the closures start no timer themselves. *)
Fixpoint fire_all (ts : list Z) (l : t) : t * list signal :=
  match ts with
  | [] => (l, [])
  | id :: rest =>
      let '(l1, out1) := deferred id l in
      let '(l2, out2) := fire_all rest l1 in
      (l2, out1 ++ out2)
  end.

(** One request from start to finish: the call, then the event loop. *)
Definition request (id : Z) (p : process) : process * list signal :=
  let '(p1, now) := loadImageAsync id p in
  let '(l2, later) := fire_all (timers p1) (self p1) in
  ({| self := l2; timers := [] |}, now ++ later).

End WithImages.
End ImageLoader.

(** ** Concrete objects the code is run on *)

Module Examples.
Import ImageLoader.

(** Bitmaps, with a directory in which nothing decodes. *)
#[export] Instance bitmaps : QtImage Bitmap.t := Bitmap.qt [].

Definition sample_image : Bitmap.t :=
  Bitmap.Pixels (mkQSize 640 480) (Bitmap.Numbered 7).

Definition hd_size : QSize := mkQSize 1920 1080.

(** The gallery of main.cpp when the image directory is missing. *)
Definition gallery : @process Bitmap.t :=
  mkProcess (ctor "images" 15 hd_size (Some ∅) []) [].

(** One file that does not decode; a preview size of 0 x 0. *)
Definition no_preview : @process Bitmap.t :=
  mkProcess (ctor "images" 1 (mkQSize 0 0) (Some ∅) ["images/a.png"%string]) [].

(** One file that does not decode; no cache attached. *)
Definition no_cache : @process Bitmap.t :=
  mkProcess (ctor "images" 1 hd_size None ["images/a.png"%string]) [].

(** One file that does not decode; the configuration of main.cpp. *)
Definition one_bad_file : @process Bitmap.t :=
  mkProcess (ctor "images" 15 hd_size (Some ∅) ["images/a.png"%string]) [].

(** Three files found; the configuration of main.cpp. *)
Definition three_files : @t Bitmap.t :=
  ctor "images" 15 hd_size (Some ∅)
    ["images/a.png"; "images/b.png"; "images/c.png"]%string.

End Examples.

(** ** Repeated navigation *)

Module Walk.
Import UINavigator.

(** k calls of next(), one after the other: the state they leave and
    the signals they emit, oldest first. *)
Fixpoint next_run (k : nat) (n : t) : t * list signal :=
  match k with
  | O => (n, [])
  | S k' =>
      let r := next n in
      let '(n2, out) := next_run k' (post r) in
      (n2, emitted r ++ out)
  end.

(** k calls of previous(), one after the other: the state they leave and
    the signals they emit, oldest first. *)
Fixpoint previous_run (k : nat) (n : t) : t * list signal :=
  match k with
  | O => (n, [])
  | S k' =>
      let r := previous n in
      let '(n2, out) := previous_run k' (post r) in
      (n2, emitted r ++ out)
  end.

(** The identifier each signal of a list announces. *)
Definition announced (out : list signal) : list Z :=
  map (fun s => match s with imageIdChanged newId => newId end) out.

End Walk.

(** ** What a closure of the loader delivers *)

Module Delivery.
Import ImageLoader.
Section WithImages.
Context {QImage : Type} `{!QtImage QImage}.

(** The image the closure hands on after step 3, the scaling. *)
Definition delivered (id : Z) (l : t) : QImage :=
  QImage_scaled (obtain id l) (m_maxPreviewSize l).

End WithImages.
End Delivery.

(** ** More concrete objects *)

Module Examples2.
Import ImageLoader Examples.

(** A directory whose one file decodes to 4000 x 3000 pixels. *)
Definition disk_a : list (string * QSize) :=
  [("images/a.png"%string, mkQSize 4000 3000)].

Definition with_a : QtImage Bitmap.t := Bitmap.qt disk_a.

(** That file found; the configuration of main.cpp. *)
Definition one_good_file : @t Bitmap.t :=
  ctor "images" 15 hd_size (Some ∅) ["images/a.png"%string].

(** That file found; a preview size of 0 x 0. *)
Definition good_file_no_preview : @t Bitmap.t :=
  ctor "images" 1 (mkQSize 0 0) (Some ∅) ["images/a.png"%string].

(** No file found; image 2 already in the cache. *)
Definition warm : @process Bitmap.t :=
  mkProcess (ctor "images" 15 hd_size (Some (<[2 := sample_image]> ∅)) []) [].

End Examples2.

(** ** MainGalleryWindow (maingallerywindow.cpp) and main (main.cpp) *)

Module MainGalleryWindow.
Section WithImages.
Context {QImage : Type} `{!QtImage QImage}.

(** What the window does to the outside, in the order it does it: the
    calls it makes on its widgets and on message boxes, the requests it
    sends to the loader, and the loader signals its slots receive.
    [imageLabel_setPixmap_null] is setPixmap(QPixmap());
    [imageLabel_setPixmap_scaled image size] is setPixmap of the pixmap
    made from [image] and scaled to [size] with Qt::KeepAspectRatio. *)
Inductive effect : Type :=
| idLabel_setText (text : string)
| prevButton_setEnabled (enabled : bool)
| nextButton_setEnabled (enabled : bool)
| prevButton_setIcon (triangle : list (Z * Z))
| nextButton_setIcon (triangle : list (Z * Z))
| imageLabel_setText (text : string)
| imageLabel_setPixmap_null
| imageLabel_setPixmap_scaled (image : QImage) (targetSize : QSize)
| imageLabel_setAlignment_AlignCenter
| QMessageBox_warning (title text : string)
| Request (id : Z)
| Received (s : ImageLoader.signal (QImage := QImage)).

(** The window, with the two objects its pointers refer to (both owned
    by main and not null there) and the size the layout has given to
    ui->imageFrame. *)
Record t : Type := mk {
  m_imageLoader : ImageLoader.process (QImage := QImage);
  m_uiNavigator : UINavigator.t;
  m_maxImageId : Z;
  imageFrame : QSize
}.

Definition with_loader (p : ImageLoader.process) (w : t) : t :=
  {| m_imageLoader := p; m_uiNavigator := m_uiNavigator w;
     m_maxImageId := m_maxImageId w; imageFrame := imageFrame w |}.

Definition with_navigator (n : UINavigator.t) (w : t) : t :=
  {| m_imageLoader := m_imageLoader w; m_uiNavigator := n;
     m_maxImageId := m_maxImageId w; imageFrame := imageFrame w |}.

(** QString::arg(int): the decimal digits, with a minus sign when negative. *)
Definition number (z : Z) : string := pretty z.

(** The size updateImageDisplay scales the pixmap to. *)
Definition targetSize (frame : QSize) : QSize :=
  let targetSize := mkQSize (Int.sub (width frame) 20) (Int.sub (height frame) 20) in
  if QSize_isEmpty targetSize || (width targetSize <=? 0) || (height targetSize <=? 0)
  then mkQSize 800 600
  else targetSize.

(** MainGalleryWindow::updateImageDisplay(image) *)
Definition updateImageDisplay (image : QImage) (w : t) : list effect :=
  if isNull image then
    [imageLabel_setText "Immagine non disponibile."; imageLabel_setPixmap_null]
  else
    [imageLabel_setPixmap_scaled image (targetSize (imageFrame w));
     imageLabel_setAlignment_AlignCenter;
     imageLabel_setText ""].

(** MainGalleryWindow::updateNavigationButtons(currentId, maxId) *)
Definition updateNavigationButtons (currentId maxId : Z) : list effect :=
  let buttonsEnabled := maxId >? 0 in
  [prevButton_setEnabled buttonsEnabled; nextButton_setEnabled buttonsEnabled].

(** MainGalleryWindow::updateIdLabel(currentId, maxId) *)
Definition updateIdLabel (currentId maxId : Z) : list effect :=
  [idLabel_setText ("ID: " +:+ number currentId +:+ "/" +:+ number maxId)].

(** MainGalleryWindow::setupUiIcons() *)
Definition setupUiIcons : list effect :=
  [prevButton_setIcon [(50, 10); (10, 30); (50, 50)];
   nextButton_setIcon [(10, 10); (50, 30); (10, 50)]].

(** MainGalleryWindow::onImageLoaded(id, image) *)
Definition onImageLoaded (id : Z) (image : QImage) (w : t) : list effect :=
  if id =? UINavigator.currentImageId (m_uiNavigator w)
  then updateImageDisplay image w
  else [].

(** MainGalleryWindow::onLoadingError(id, errorMessage) *)
Definition onLoadingError (id : Z) (errorMessage : string) (w : t) : list effect :=
  (if id =? UINavigator.currentImageId (m_uiNavigator w) then
     [imageLabel_setText
        ("Errore caricamento immagine " +:+ number id +:+ ":" +:+
         String (Ascii.ascii_of_nat 10) "" +:+ errorMessage);
      imageLabel_setPixmap_null]
   else []) ++
  [QMessageBox_warning "Errore di caricamento"
     ("Impossibile caricare l'immagine ID " +:+ number id +:+ ": " +:+ errorMessage)].

(** A loader signal reaching the slot connected to it. *)
Definition receive (s : ImageLoader.signal) (w : t) : list effect :=
  Received s ::
  match s with
  | ImageLoader.imageLoaded id image => onImageLoaded id image w
  | ImageLoader.loadingError id errorMessage => onLoadingError id errorMessage w
  end.

(** m_imageLoader->loadImageAsync(id), with the slots run by the signals
    it emits before it returns. *)
Definition call_loadImageAsync (id : Z) (w : t) : t * list effect :=
  let '(p, out) := ImageLoader.loadImageAsync id (m_imageLoader w) in
  let w' := with_loader p w in
  (w', Request id :: flat_map (fun s => receive s w') out).

(** MainGalleryWindow::onImageIdChanged(newId) *)
Definition onImageIdChanged (newId : Z) (w : t) : t * list effect :=
  let '(w', fx) := call_loadImageAsync newId w in
  (w', updateIdLabel newId (m_maxImageId w) ++
       updateNavigationButtons newId (m_maxImageId w) ++ fx).

(** The navigator signals of one call reaching onImageIdChanged. *)
Fixpoint notify (out : list UINavigator.signal) (w : t) : t * list effect :=
  match out with
  | [] => (w, [])
  | UINavigator.imageIdChanged newId :: rest =>
      let '(w1, fx1) := onImageIdChanged newId w in
      let '(w2, fx2) := notify rest w1 in
      (w2, fx1 ++ fx2)
  end.

(** MainGalleryWindow::on_prevButton_clicked() *)
Definition on_prevButton_clicked (w : t) : t * list effect :=
  let r := UINavigator.previous (m_uiNavigator w) in
  notify (UINavigator.emitted r) (with_navigator (UINavigator.post r) w).

(** MainGalleryWindow::on_nextButton_clicked() *)
Definition on_nextButton_clicked (w : t) : t * list effect :=
  let r := UINavigator.next (m_uiNavigator w) in
  notify (UINavigator.emitted r) (with_navigator (UINavigator.post r) w).

(** The oldest pending timer of the loader fires. *)
Definition timeout (w : t) : t * list effect :=
  match ImageLoader.timers (m_imageLoader w) with
  | [] => (w, [])
  | id :: rest =>
      let '(l, out) := ImageLoader.deferred id (ImageLoader.self (m_imageLoader w)) in
      let w' := with_loader (ImageLoader.mkProcess l rest) w in
      (w', flat_map (fun s => receive s w') out)
  end.

(** MainGalleryWindow::MainGalleryWindow(loader, navigator), for the two
    pointers not null. *)
Definition ctor (loader : ImageLoader.process) (navigator : UINavigator.t)
    (frame : QSize) : t * list effect :=
  let w := {| m_imageLoader := loader; m_uiNavigator := navigator;
              m_maxImageId := UINavigator.maxImageId navigator;
              imageFrame := frame |} in
  let '(w', fx) := call_loadImageAsync (UINavigator.currentImageId navigator) w in
  (w', updateIdLabel (UINavigator.currentImageId navigator) (m_maxImageId w) ++
       updateNavigationButtons (UINavigator.currentImageId navigator) (m_maxImageId w) ++
       fx ++ setupUiIcons).

(** What the event loop hands to the window. *)
Inductive event : Type :=
| ClickPrev
| ClickNext
| TimerFires
| Resize (frame : QSize).

Definition handle (e : event) (w : t) : t * list effect :=
  match e with
  | ClickPrev => on_prevButton_clicked w
  | ClickNext => on_nextButton_clicked w
  | TimerFires => timeout w
  | Resize frame =>
      ({| m_imageLoader := m_imageLoader w; m_uiNavigator := m_uiNavigator w;
          m_maxImageId := m_maxImageId w; imageFrame := frame |}, [])
  end.

Fixpoint run (es : list event) (w : t) : t * list effect :=
  match es with
  | [] => (w, [])
  | e :: rest =>
      let '(w1, fx1) := handle e w in
      let '(w2, fx2) := run rest w1 in
      (w2, fx1 ++ fx2)
  end.

Definition MAX_GALLERY_IMAGES : Z := 15.

(** main(), given the directory of the executable, the image files the
    loader finds and the first size of the frame: the objects it builds,
    up to the window on show. *)
Definition main (applicationDirPath : string) (found : list string) (frame : QSize)
    : t * list effect :=
  let imageCache := ImageCache.ctor in
  let imageDirPath := applicationDirPath +:+ "/../images" in
  let maxPreviewSize := mkQSize 1920 1080 in
  let imageLoader :=
    ImageLoader.ctor imageDirPath MAX_GALLERY_IMAGES maxPreviewSize (Some imageCache) found in
  let uiNavigator :=
    UINavigator.ctor 0 (Int.sub (ImageLoader.imageCount imageLoader) 1) in
  let uiNavigator :=
    UINavigator.post
      (UINavigator.setMaxImageId (Int.sub (ImageLoader.imageCount imageLoader) 1)
                                 uiNavigator) in
  ctor (ImageLoader.mkProcess imageLoader []) uiNavigator frame.

End WithImages.
End MainGalleryWindow.

(** ** The window wired as main wires it *)

Module Wiring.
Import MainGalleryWindow.
Section WithImages.
Context {QImage : Type} `{!QtImage QImage}.

(** The loader counts [count] images, at least one; the navigator and the
    window both hold [count - 1] as the maximum id, and the current id
    lies between 0 and that maximum. *)
Definition wired (count : Z) (w : t (QImage := QImage)) : Prop :=
  1 <= count <= Int.INT_MAX /\
  ImageLoader.imageCount (ImageLoader.self (m_imageLoader w)) = count /\
  UINavigator.m_maxImageId (m_uiNavigator w) = count - 1 /\
  m_maxImageId w = count - 1 /\
  0 <= UINavigator.m_currentImageId (m_uiNavigator w) <= count - 1.

(** What is expected of each effect when [count] images are counted: a
    request is for an id below [count], no bounds error comes back, and
    the buttons are enabled exactly if there is more than one image. *)
Definition harmless (count : Z) (fx : effect (QImage := QImage)) : Prop :=
  match fx with
  | Request id => 0 <= id < count
  | Received (ImageLoader.loadingError _ errorMessage) =>
      errorMessage <> "Image ID out of bounds."%string
  | prevButton_setEnabled enabled => enabled = (count >? 1)
  | nextButton_setEnabled enabled => enabled = (count >? 1)
  | _ => True
  end.

(** The ids requested from the loader, in order. *)
Fixpoint requests (fx : list (effect (QImage := QImage))) : list Z :=
  match fx with
  | [] => []
  | Request id :: rest => id :: requests rest
  | _ :: rest => requests rest
  end.

End WithImages.
End Wiring.

(** * Properties *)

(** ** The bitmap model *)

Module BitmapFacts.

Lemma fit_own_size size : QSize_isEmpty size = false -> Bitmap.fit size size = size.
Proof.
  destruct size as [w h]. unfold QSize_isEmpty, Bitmap.fit. cbn [width height].
  intros E. apply orb_false_iff in E. destruct E as [Ew Eh].
  apply Z.ltb_ge in Ew, Eh.
  rewrite (Z.mul_comm h w), Z.div_mul by lia.
  rewrite Z.leb_refl. cbn [width height].
  rewrite !Z.max_l by lia. reflexivity.
Qed.

Lemma bitmap_scaled_keeps_own_size disk :
  @scaled_keeps_own_size Bitmap.t (Bitmap.qt disk).
Proof.
  intros size id. cbn. unfold Bitmap.create.
  destruct (QSize_isEmpty size) eqn:E; [discriminate|]. intros _.
  cbn. rewrite E, (fit_own_size size E). reflexivity.
Qed.

End BitmapFacts.

(** ** 32-bit arithmetic *)

Module IntFacts.
Import Int.

Lemma wrap_id z : in_range z -> wrap z = z.
Proof.
  unfold in_range, INT_MIN, INT_MAX, wrap. intros Hz.
  rewrite Z.mod_small by lia. lia.
Qed.

Lemma wrap_in_range z : in_range (wrap z).
Proof.
  unfold in_range, INT_MIN, INT_MAX, wrap.
  pose proof (Z.mod_pos_bound (z + 2147483648) 4294967296 eq_refl). lia.
Qed.

Lemma wrap_past_max : wrap (INT_MAX + 1) = INT_MIN.
Proof. reflexivity. Qed.

(** The remainder [next] computes is the mathematical one, also when
    [m + 1] leaves the 32-bit range. *)
Lemma rem_add_one c m :
  0 <= c <= m -> m <= INT_MAX ->
  rem (add c 1) (add m 1) = (c + 1) mod (m + 1).
Proof.
  intros Hc Hm. unfold rem, add.
  destruct (Z.eq_dec m INT_MAX) as [->|Hne].
  - rewrite wrap_past_max.
    destruct (Z.eq_dec c INT_MAX) as [->|Hc'].
    + rewrite wrap_past_max. reflexivity.
    + unfold INT_MAX, INT_MIN in *. rewrite wrap_id by (unfold in_range, INT_MIN, INT_MAX; lia).
      change (-2147483648) with (- (2147483648)). rewrite Z.rem_opp_r by lia.
      rewrite Z.rem_small by lia. rewrite Z.mod_small by lia. reflexivity.
  - unfold INT_MAX in *.
    rewrite !wrap_id by (unfold in_range, INT_MIN, INT_MAX; lia).
    apply Z.rem_mod_nonneg; lia.
Qed.

Lemma sub_one c : 0 < c -> c <= INT_MAX -> sub c 1 = c - 1.
Proof.
  intros H0 H1. unfold sub. apply wrap_id.
  unfold in_range, INT_MIN, INT_MAX in *. lia.
Qed.

End IntFacts.

(** ** UINavigator *)

Module UINavigatorFacts.
Import UINavigator.

Local Ltac unfold_ops :=
  unfold next, previous, setMaxImageId, ctor, in_bounds in *; simpl in *.

Local Ltac split_tests :=
  repeat match goal with
  | |- context [if ?b then _ else _] => destruct b eqn:?; simpl
  | H : context [if ?b then _ else _] |- _ => destruct b eqn:?; simpl in H
  end.

Lemma next_in_bounds_eq n :
  in_bounds n ->
  next n =
    let cur := (m_currentImageId n + 1) mod (m_maxImageId n + 1) in
    Outcome true (mk cur (m_maxImageId n)) [imageIdChanged cur].
Proof.
  intros [Hc Hm]. unfold next.
  destruct (Z.ltb_spec (m_maxImageId n) 0); [lia|].
  cbv zeta. rewrite IntFacts.rem_add_one by assumption. reflexivity.
Qed.

Lemma previous_in_bounds_eq n :
  in_bounds n ->
  previous n =
    let cur := if m_currentImageId n =? 0 then m_maxImageId n
               else m_currentImageId n - 1 in
    Outcome true (mk cur (m_maxImageId n)) [imageIdChanged cur].
Proof.
  intros [Hc Hm]. unfold previous.
  destruct (Z.ltb_spec (m_maxImageId n) 0); [lia|].
  cbv zeta. destruct (Z.eqb_spec (m_currentImageId n) 0); [reflexivity|].
  rewrite IntFacts.sub_one by lia. reflexivity.
Qed.

Lemma next_keeps_in_bounds n : in_bounds n -> in_bounds (post (next n)).
Proof.
  intros H. rewrite next_in_bounds_eq by assumption.
  destruct H as [Hc Hm]. unfold in_bounds. simpl.
  pose proof (Z.mod_pos_bound (m_currentImageId n + 1) (m_maxImageId n + 1)). lia.
Qed.

Lemma previous_keeps_in_bounds n : in_bounds n -> in_bounds (post (previous n)).
Proof.
  intros H. rewrite previous_in_bounds_eq by assumption.
  destruct H as [Hc Hm]. unfold in_bounds. simpl.
  destruct (Z.eqb_spec (m_currentImageId n) 0); lia.
Qed.

Lemma setMaxImageId_keeps_in_bounds maxId n :
  Int.in_range maxId -> in_bounds n -> in_bounds (post (setMaxImageId maxId n)).
Proof.
  unfold Int.in_range, Int.INT_MIN, Int.INT_MAX. intros Hr [Hc Hm].
  unfold_ops. unfold Int.INT_MAX in *. split_tests; lia.
Qed.

Lemma ctor_in_bounds initialImageId maxImageId :
  Int.in_range maxImageId -> 0 <= maxImageId ->
  in_bounds (ctor initialImageId maxImageId).
Proof.
  unfold Int.in_range, Int.INT_MIN, Int.INT_MAX. intros Hr H0.
  unfold_ops. unfold Int.INT_MAX. split_tests; lia.
Qed.

(** With a non-negative maximum given to the constructor, the identifier
    stays inside [0, maxId] whatever is called afterwards. *)
Lemma reachable_nonneg_in_bounds n : reachable_nonneg n -> in_bounds n.
Proof.
  induction 1.
  - now apply ctor_in_bounds.
  - now apply next_keeps_in_bounds.
  - now apply previous_keeps_in_bounds.
  - now apply setMaxImageId_keeps_in_bounds.
Qed.

(** While there is no image, both navigation calls fail and change nothing. *)
Lemma navigation_without_images n :
  m_maxImageId n < 0 ->
  next n = Outcome false n [] /\ previous n = Outcome false n [].
Proof.
  intros H. unfold next, previous.
  destruct (Z.ltb_spec (m_maxImageId n) 0); [split; reflexivity | lia].
Qed.

(** C1 (the code departs from the claimed invariant).  Constructed with
    initialImageId = 0 and maxImageId = -1, the navigator holds
    currentId = -1 and not 0: the constructor raises a negative identifier
    to 0 and then lowers it to the negative maximum.  A later
    setMaxImageId(5) leaves the reachable state (currentId, maxId) = (-1, 5),
    where maxId >= 0 and currentId is below 0, and previous() then moves
    to -2.  Neither state satisfies the invariant of the specification.
    Whatever the initial id, a negative maxImageId leaves currentId equal
    to that maximum. *)
Theorem ctor_negative_max_escapes_invariant :
  let n0 := ctor 0 (-1) in
  let n1 := post (setMaxImageId 5 n0) in
  reachable n0 /\ n0 = mk (-1) (-1) /\ ~ spec_invariant n0 /\
  reachable n1 /\ n1 = mk (-1) 5 /\ ~ spec_invariant n1 /\
  previous n1 = Outcome true (mk (-2) 5) [imageIdChanged (-2)] /\
  (forall initialImageId maxImageId,
     maxImageId < 0 -> ctor initialImageId maxImageId = mk maxImageId maxImageId).
Proof.
  cbv zeta.
  assert (Hneg : forall i m, m < 0 -> ctor i m = mk m m).
  { intros i m Hm. unfold ctor.
    destruct (Z.ltb_spec i 0).
    - destruct (Z.gtb_spec 0 m); [reflexivity | lia].
    - destruct (Z.gtb_spec i m); [reflexivity | lia]. }
  assert (R0 : reachable (ctor 0 (-1))).
  { apply reach_ctor; unfold Int.in_range, Int.INT_MIN, Int.INT_MAX; lia. }
  assert (R1 : reachable (post (setMaxImageId 5 (ctor 0 (-1))))).
  { apply reach_setMaxImageId; [|exact R0].
    unfold Int.in_range, Int.INT_MIN, Int.INT_MAX; lia. }
  repeat split; try assumption; try reflexivity.
  - intros [_ H]. simpl in H. destruct H as [H _]; [lia | discriminate H].
  - intros [H _]. simpl in H. lia.
Qed.

(** C3.  In a state with maxId >= 0 and 0 <= currentId <= maxId, next()
    returns true, sets currentId to (currentId + 1) mod (maxId + 1) and
    emits imageIdChanged with that value; previous() returns true, sets
    currentId to maxId when it was 0 and to currentId - 1 otherwise, and
    emits imageIdChanged with that value.  For the navigator constructed
    with initialImageId = 0 and maxImageId = 4, four next() calls announce
    1, 2, 3, 4, the fifth announces 0, and previous() from 0 gives 4. *)
Theorem next_previous_wraparound n :
  0 <= m_maxImageId n ->
  0 <= m_currentImageId n <= m_maxImageId n ->
  m_maxImageId n <= Int.INT_MAX ->
  (let cur := (m_currentImageId n + 1) mod (m_maxImageId n + 1) in
   next n = Outcome true (mk cur (m_maxImageId n)) [imageIdChanged cur]) /\
  (let cur := if m_currentImageId n =? 0 then m_maxImageId n
              else m_currentImageId n - 1 in
   previous n = Outcome true (mk cur (m_maxImageId n)) [imageIdChanged cur]) /\
  (snd (next_times 4 (ctor 0 4)) = [1; 2; 3; 4] /\
   snd (next_times 5 (ctor 0 4)) = [1; 2; 3; 4; 0] /\
   previous (ctor 0 4) = Outcome true (mk 4 4) [imageIdChanged 4]).
Proof.
  intros _ Hc Hm.
  assert (Hb : in_bounds n) by (split; assumption).
  split; [exact (next_in_bounds_eq n Hb)|].
  split; [exact (previous_in_bounds_eq n Hb)|].
  repeat split; reflexivity.
Qed.

Lemma next_previous_wraparound_witness :
  next (mk 4 4) = Outcome true (mk 0 4) [imageIdChanged 0] /\
  previous (mk 4 4) = Outcome true (mk 3 4) [imageIdChanged 3].
Proof.
  assert (H0 : 0 <= m_maxImageId (mk 4 4)) by (simpl; lia).
  assert (H1 : 0 <= m_currentImageId (mk 4 4) <= m_maxImageId (mk 4 4)) by (simpl; lia).
  assert (H2 : m_maxImageId (mk 4 4) <= Int.INT_MAX) by (unfold Int.INT_MAX; simpl; lia).
  destruct (next_previous_wraparound (mk 4 4) H0 H1 H2) as [Hn [Hp _]].
  split; [exact Hn | exact Hp].
Defined.

(** C5.  setMaxImageId(newMax) treats a negative argument exactly as 0.
    If the normalised value equals the present maxId, the state is
    unchanged and nothing is emitted.  If it differs, maxId becomes the
    normalised value; when currentId exceeded it, currentId becomes the
    new maxId and imageIdChanged is emitted with it; when it did not,
    currentId is kept and nothing is emitted. *)
Theorem setMaxImageId_normalises_and_clamps maxId n :
  let newMax := Z.max 0 maxId in
  let r := setMaxImageId maxId n in
  (maxId < 0 -> newMax = 0 /\ r = setMaxImageId 0 n) /\
  (newMax = m_maxImageId n -> r = Outcome tt n []) /\
  (newMax <> m_maxImageId n ->
     m_maxImageId (post r) = newMax /\
     (newMax < m_currentImageId n ->
        m_currentImageId (post r) = newMax /\ emitted r = [imageIdChanged newMax]) /\
     (m_currentImageId n <= newMax ->
        m_currentImageId (post r) = m_currentImageId n /\ emitted r = [])).
Proof.
  cbv zeta.
  assert (Hnorm : setMaxImageId maxId n = setMaxImageId (Z.max 0 maxId) n).
  { unfold setMaxImageId.
    destruct (Z.ltb_spec maxId 0), (Z.ltb_spec (Z.max 0 maxId) 0); try lia.
    - replace (Z.max 0 maxId) with 0 by lia. reflexivity.
    - replace (Z.max 0 maxId) with maxId by lia. reflexivity. }
  split.
  { intros Hneg. replace (Z.max 0 maxId) with 0 in Hnorm by lia.
    split; [lia | exact Hnorm]. }
  rewrite Hnorm. clear Hnorm.
  pose proof (Z.le_max_l 0 maxId) as Hge.
  generalize dependent (Z.max 0 maxId). intros newMax Hge.
  unfold setMaxImageId.
  destruct (Z.ltb_spec newMax 0); [lia|].
  destruct (Z.eqb_spec (m_maxImageId n) newMax) as [He|He]; simpl negb; cbv iota.
  - split; [reflexivity | congruence].
  - split; [congruence|]. intros _.
    destruct (Z.gtb_spec (m_currentImageId n) newMax); simpl;
      repeat split; try reflexivity; lia.
Qed.

(** C10.  In a state with maxId >= 0 and 0 <= currentId <= maxId, next()
    followed by previous() gives back the original currentId, and so does
    previous() followed by next(). *)
Theorem next_previous_inverse n :
  0 <= m_maxImageId n ->
  0 <= m_currentImageId n <= m_maxImageId n ->
  m_maxImageId n <= Int.INT_MAX ->
  m_currentImageId (post (previous (post (next n)))) = m_currentImageId n /\
  m_currentImageId (post (next (post (previous n)))) = m_currentImageId n.
Proof.
  intros _ Hc Hm.
  assert (Hb : in_bounds n) by (split; assumption).
  split.
  - rewrite (previous_in_bounds_eq _ (next_keeps_in_bounds n Hb)).
    rewrite (next_in_bounds_eq n Hb). simpl.
    destruct (Z.eq_dec (m_currentImageId n) (m_maxImageId n)) as [He|Hne].
    + rewrite He, Z_mod_same_full. simpl. reflexivity.
    + rewrite Z.mod_small by lia.
      destruct (Z.eqb_spec (m_currentImageId n + 1) 0); lia.
  - rewrite (next_in_bounds_eq _ (previous_keeps_in_bounds n Hb)).
    rewrite (previous_in_bounds_eq n Hb). simpl.
    destruct (Z.eqb_spec (m_currentImageId n) 0) as [He|Hne].
    + rewrite Z_mod_same_full. lia.
    + replace (m_currentImageId n - 1 + 1) with (m_currentImageId n) by lia.
      apply Z.mod_small. lia.
Qed.

Lemma next_previous_inverse_witness :
  m_currentImageId (post (previous (post (next (mk 4 4))))) = 4 /\
  m_currentImageId (post (next (post (previous (mk 0 4))))) = 0.
Proof.
  split.
  - refine (proj1 (next_previous_inverse (mk 4 4) _ _ _));
      unfold Int.INT_MAX; simpl; lia.
  - refine (proj2 (next_previous_inverse (mk 0 4) _ _ _));
      unfold Int.INT_MAX; simpl; lia.
Defined.

End UINavigatorFacts.

(** ** ImageCache *)

Module ImageCacheFacts.
Import ImageCache.

Section WithImages.
Context {QImage : Type} `{!QtImage QImage}.
Implicit Types (c : gmap Z QImage) (image : QImage) (id : Z).

Lemma contains_true id c : contains id c = true <-> is_Some (c !! id).
Proof. unfold contains. apply bool_decide_eq_true. Qed.

Lemma contains_false id c : contains id c = false <-> c !! id = None.
Proof.
  unfold contains. rewrite bool_decide_eq_false. symmetry. apply eq_None_not_Some.
Qed.

Lemma getImage_stored id c image : c !! id = Some image -> getImage id c = image.
Proof.
  intros H. unfold getImage, value.
  replace (contains id c) with true.
  - rewrite H. reflexivity.
  - symmetry. apply contains_true. rewrite H. eauto.
Qed.

Lemma getImage_absent id c : c !! id = None -> getImage id c = QImage_null.
Proof.
  intros H. unfold getImage.
  apply contains_false in H. rewrite H. reflexivity.
Qed.

Lemma setImage_stores id image c :
  isNull image = false -> setImage id image c !! id = Some image.
Proof. intros H. unfold setImage. rewrite H. apply lookup_insert_eq. Qed.

Lemma run_op_keeps id image o c :
  keeps id o = true -> c !! id = Some image -> run_op o c !! id = Some image.
Proof.
  destruct o as [id' image'| id' |]; simpl; intros Hk Hc.
  - unfold setImage. destruct (isNull image') eqn:Hn; [exact Hc|].
    rewrite orb_false_r in Hk. apply negb_true_iff in Hk.
    apply Z.eqb_neq in Hk. rewrite lookup_insert_ne; assumption.
  - apply negb_true_iff in Hk. apply Z.eqb_neq in Hk.
    unfold removeImage. rewrite lookup_delete_ne; assumption.
  - discriminate Hk.
Qed.

Lemma run_ops_keeps id image os :
  forall c, forallb (keeps id) os = true -> c !! id = Some image ->
            run_ops os c !! id = Some image.
Proof.
  induction os as [|o os IH]; intros c Hk Hc; simpl in *.
  - exact Hc.
  - apply andb_true_iff in Hk. destruct Hk as [Ho Hos].
    apply IH; [exact Hos|]. now apply run_op_keeps.
Qed.

Lemma run_op_no_null o c : no_null_entry c -> no_null_entry (run_op o c).
Proof.
  intros Hc. destruct o as [id' image'| id' |]; simpl.
  - unfold setImage. destruct (isNull image') eqn:Hn; [exact Hc|].
    intros id image. destruct (decide (id' = id)) as [->|Hne].
    + rewrite lookup_insert_eq. intros [= <-]. exact Hn.
    + rewrite lookup_insert_ne by assumption. apply Hc.
  - intros id image. unfold removeImage.
    destruct (decide (id' = id)) as [->|Hne].
    + rewrite lookup_delete_eq. discriminate.
    + rewrite lookup_delete_ne by assumption. apply Hc.
  - intros id image. unfold clear. rewrite lookup_empty. discriminate.
Qed.

Lemma run_ops_no_null os : forall c, no_null_entry c -> no_null_entry (run_ops os c).
Proof.
  induction os as [|o os IH]; intros c Hc; simpl.
  - exact Hc.
  - apply IH. now apply run_op_no_null.
Qed.

Lemma ctor_no_null : no_null_entry (ctor : gmap Z QImage).
Proof. intros id image. unfold ctor. rewrite lookup_empty. discriminate. Qed.

(** C4.  After setImage(id, image) with a non-null image, contains(id) is
    true and getImage(id) returns that image, and both stay so through any
    further calls that do not remove id, clear the cache or store another
    image under id.  getImage is defined on every cache and id, and for an
    id that is not contained it returns the null image QImage(). *)
Theorem setImage_then_getImage id image c os :
  isNull image = false ->
  forallb (keeps id) os = true ->
  (contains id (run_ops os (setImage id image c)) = true /\
   getImage id (run_ops os (setImage id image c)) = image) /\
  (forall c0 id0, contains id0 c0 = false ->
     getImage id0 c0 = QImage_null /\ isNull (getImage id0 c0) = true).
Proof.
  intros Hn Hk. split.
  - pose proof (run_ops_keeps id image os _ Hk (setImage_stores id image c Hn)) as H.
    split.
    + apply contains_true. rewrite H. eauto.
    + now apply getImage_stored.
  - intros c0 id0 H0. apply contains_false in H0.
    rewrite (getImage_absent _ _ H0). split; [reflexivity|].
    apply isNull_QImage_null.
Qed.

(** C8.  setImage(id, image) with a null image returns the cache as it
    was: every key keeps its entry or its absence.  No cache obtained from
    the constructor by setImage, removeImage and clear holds a null image,
    and in particular none holds this one. *)
Theorem setImage_null_rejected id image c :
  isNull image = true ->
  setImage id image c = c /\
  (forall os, no_null_entry (run_ops os ctor)) /\
  (forall os id0, run_ops os ctor !! id0 <> Some image).
Proof.
  intros Hn. split; [|split].
  - unfold setImage. rewrite Hn. reflexivity.
  - intros os. apply run_ops_no_null, ctor_no_null.
  - intros os id0 Hs.
    pose proof (run_ops_no_null os _ ctor_no_null id0 image Hs) as Hf.
    congruence.
Qed.

End WithImages.

Import Examples.

Lemma setImage_then_getImage_witness :
  (contains 7 (run_ops [SetImage 8 sample_image; RemoveImage 9; SetImage 7 Bitmap.Null]
                       (setImage 7 sample_image ∅)) = true /\
   getImage 7 (run_ops [SetImage 8 sample_image; RemoveImage 9; SetImage 7 Bitmap.Null]
                       (setImage 7 sample_image ∅)) = sample_image) /\
  (forall (c0 : gmap Z Bitmap.t) id0, contains id0 c0 = false ->
     getImage id0 c0 = QImage_null /\ isNull (getImage id0 c0) = true).
Proof.
  apply (setImage_then_getImage 7 sample_image ∅
           [SetImage 8 sample_image; RemoveImage 9; SetImage 7 Bitmap.Null]);
    reflexivity.
Defined.

Lemma setImage_null_rejected_witness :
  setImage 3 Bitmap.Null (<[1 := sample_image]> ∅) = <[1 := sample_image]> ∅ /\
  (forall os, no_null_entry (run_ops os (ctor : gmap Z Bitmap.t))) /\
  (forall os id0, run_ops os (ctor : gmap Z Bitmap.t) !! id0 <> Some Bitmap.Null).
Proof.
  apply (setImage_null_rejected 3 Bitmap.Null (<[1 := sample_image]> ∅)).
  reflexivity.
Defined.

End ImageCacheFacts.

(** ** ImageLoader *)

Module ImageLoaderFacts.
Import ImageLoader.

Section WithImages.
Context {QImage : Type} `{!QtImage QImage}.
Implicit Types (l : t (QImage := QImage)) (p : process (QImage := QImage)) (id : Z).

Lemma size_nonneg l : 0 <= size l.
Proof. unfold size. lia. Qed.

Lemma out_of_bounds_true id l :
  out_of_bounds id l = true <-> id < 0 \/ imageCount l <= id.
Proof.
  unfold out_of_bounds. rewrite orb_true_iff, Z.ltb_lt, Z.geb_le. reflexivity.
Qed.

(** The closure emits one signal, about the id it captured. *)
Lemma deferred_one_signal id l :
  exists s, snd (deferred id l) = [s] /\ signal_id s = id.
Proof.
  unfold deferred. destruct (isNull (obtain id l)); simpl; eauto.
Qed.

Lemma loadImageAsync_immediate id p :
  out_of_bounds id (self p) = true \/ cached id (self p) = true ->
  fst (loadImageAsync id p) = p /\
  exists s, snd (loadImageAsync id p) = [s] /\ signal_id s = id.
Proof.
  intros H. unfold loadImageAsync.
  destruct (out_of_bounds id (self p)); simpl; [eauto|].
  destruct H as [H|H]; [discriminate H|]. rewrite H. simpl. eauto.
Qed.

Lemma loadImageAsync_deferred id p :
  out_of_bounds id (self p) = false -> cached id (self p) = false ->
  loadImageAsync id p = (mkProcess (self p) (timers p ++ [id]), []).
Proof. intros Hb Hc. unfold loadImageAsync. rewrite Hb, Hc. reflexivity. Qed.

(** C2 (as amended).  For id < 0 or id >= imageCount(), loadImageAsync(id)
    emits, before it returns, the single signal loadingError(id, "Image ID
    out of bounds.") -- the message ends with a full stop -- and no
    imageLoaded; it starts no timer and leaves the loader as it was. *)
Theorem loadImageAsync_out_of_bounds id p :
  id < 0 \/ imageCount (self p) <= id ->
  loadImageAsync id p = (p, [loadingError id "Image ID out of bounds."%string]).
Proof.
  intros H. apply out_of_bounds_true in H.
  unfold loadImageAsync. rewrite H. reflexivity.
Qed.

(** C6.  A call loadImageAsync(id) accounts for one notification, which
    carries id and is either imageLoaded or loadingError.  When id is out
    of bounds or cached, the call emits it before returning and starts no
    timer.  Otherwise the call emits nothing and starts one timer, and the
    closure of that timer emits one notification for id whenever it runs.
    From a loader with no timer pending, the call followed by the event
    loop yields one notification in all. *)
Theorem loadImageAsync_one_notification id p :
  (out_of_bounds id (self p) = true \/ cached id (self p) = true ->
     fst (loadImageAsync id p) = p /\
     exists s, snd (loadImageAsync id p) = [s] /\ signal_id s = id) /\
  (out_of_bounds id (self p) = false /\ cached id (self p) = false ->
     snd (loadImageAsync id p) = [] /\
     fst (loadImageAsync id p) = mkProcess (self p) (timers p ++ [id]) /\
     forall l, exists s, snd (deferred id l) = [s] /\ signal_id s = id) /\
  (timers p = [] ->
     exists s, snd (request id p) = [s] /\ signal_id s = id).
Proof.
  split; [apply loadImageAsync_immediate|]. split.
  - intros [Hb Hc]. rewrite (loadImageAsync_deferred id p Hb Hc). simpl.
    repeat split. intros l. apply deferred_one_signal.
  - intros Ht. unfold request.
    destruct (out_of_bounds id (self p) || cached id (self p)) eqn:Hs.
    + apply orb_true_iff in Hs.
      destruct (loadImageAsync_immediate id p Hs) as [Hp [s [Hs1 Hs2]]].
      destruct (loadImageAsync id p) as [p1 now]. simpl in *. subst p1 now.
      rewrite Ht. simpl. eauto.
    + apply orb_false_iff in Hs. destruct Hs as [Hb Hc].
      rewrite (loadImageAsync_deferred id p Hb Hc), Ht. simpl.
      destruct (deferred_one_signal id (self p)) as [s [Hs1 Hs2]].
      destruct (deferred id (self p)) as [l1 out1]. simpl in *. subst out1.
      simpl. eauto.
Qed.

(** C7 (as amended).  For an in-bounds id that is not cached and indexes
    the path table, when the file does not decode the closure falls back
    to the placeholder generated for id.  If that placeholder is not null,
    the closure scales it, which leaves it as it is, caches it when the
    loader has a cache -- contains(id) is then true and getImage(id) is
    the placeholder -- and emits imageLoaded(id, placeholder) and no
    loadingError.  If the placeholder is null, the closure changes nothing
    and emits loadingError(id, "Failed to load or generate image.").
    Scaling is taken to return an image of the requested size as it is. *)
Theorem decode_failure_falls_back id p :
  scaled_keeps_own_size ->
  out_of_bounds id (self p) = false ->
  cached id (self p) = false ->
  0 <= id < size (self p) ->
  isNull (QImage_load (at_ id (self p))) = true ->
  loadImageAsync id p = (mkProcess (self p) (timers p ++ [id]), []) /\
  obtain id (self p) = generatePlaceholderImage id (self p) /\
  (isNull (generatePlaceholderImage id (self p)) = false ->
     QImage_scaled (generatePlaceholderImage id (self p)) (m_maxPreviewSize (self p)) =
       generatePlaceholderImage id (self p) /\
     snd (deferred id (self p)) =
       [imageLoaded id (generatePlaceholderImage id (self p))] /\
     (forall c, m_imageCache (self p) = Some c ->
        m_imageCache (fst (deferred id (self p))) =
          Some (<[id := generatePlaceholderImage id (self p)]> c) /\
        cached id (fst (deferred id (self p))) = true /\
        ImageCache.contains id (<[id := generatePlaceholderImage id (self p)]> c) = true /\
        ImageCache.getImage id (<[id := generatePlaceholderImage id (self p)]> c) =
          generatePlaceholderImage id (self p)) /\
     (m_imageCache (self p) = None -> fst (deferred id (self p)) = self p)) /\
  (isNull (generatePlaceholderImage id (self p)) = true ->
     deferred id (self p) =
       (self p, [loadingError id "Failed to load or generate image."%string])).
Proof.
  intros Hqt Hb Hc Hid Hfail.
  split; [now apply loadImageAsync_deferred|].
  assert (Ho : obtain id (self p) = generatePlaceholderImage id (self p)).
  { unfold obtain. destruct (Z.ltb_spec id (size (self p))); [|lia].
    cbv zeta. rewrite Hfail. reflexivity. }
  split; [exact Ho|]. split.
  - intros Hn.
    assert (Hs : QImage_scaled (generatePlaceholderImage id (self p))
                   (m_maxPreviewSize (self p)) =
                 generatePlaceholderImage id (self p)).
    { unfold generatePlaceholderImage in *. now apply Hqt. }
    split; [exact Hs|].
    unfold deferred. rewrite Ho, Hn. cbn [negb fst snd]. rewrite Hs.
    split; [reflexivity|]. split.
    + intros c Hsome. rewrite Hsome. cbn [fst m_imageCache].
      unfold ImageCache.setImage. rewrite Hn.
      assert (Hl : (<[id := generatePlaceholderImage id (self p)]> c) !! id =
                   Some (generatePlaceholderImage id (self p)))
        by apply lookup_insert_eq.
      assert (Hin : ImageCache.contains id
                      (<[id := generatePlaceholderImage id (self p)]> c) = true).
      { apply ImageCacheFacts.contains_true. rewrite Hl. eauto. }
      split; [reflexivity|]. split; [|split].
      * unfold cached. cbn [m_imageCache]. exact Hin.
      * exact Hin.
      * now apply ImageCacheFacts.getImage_stored.
    + intros Hnone. rewrite Hnone. reflexivity.
  - intros Hn. unfold deferred. rewrite Ho, Hn. reflexivity.
Qed.

(** C9.  imageCount() is the larger of the length of the path table and
    the configured maximum; the table length and the configured maximum
    are [int] values.  With three paths found and a configured maximum of
    15 it returns 15. *)
Theorem imageCount_is_max l :
  Z.of_nat (length (m_imagePaths l)) <= Int.INT_MAX ->
  Int.in_range (m_maxConfiguredImages l) ->
  imageCount l = Z.max (Z.of_nat (length (m_imagePaths l))) (m_maxConfiguredImages l) /\
  (forall dir previewSize (cache : option (gmap Z QImage)) (file1 file2 file3 : string),
     imageCount (ctor dir 15 previewSize cache [file1; file2; file3]) = 15).
Proof.
  intros Hs Hm. split.
  - unfold imageCount, size. apply IntFacts.wrap_id.
    unfold Int.in_range, Int.INT_MIN, Int.INT_MAX in *. lia.
  - intros. reflexivity.
Qed.

End WithImages.

Import Examples.

(** C2: at id = imageCount() = 15 the message that is emitted is not the
    text "Image ID out of bounds" of the claim. *)
Lemma out_of_bounds_message_differs :
  imageCount (self gallery) = 15 /\
  snd (loadImageAsync 15 gallery) <>
    [loadingError 15 "Image ID out of bounds"%string].
Proof.
  split; [reflexivity|]. intros H. vm_compute in H. discriminate H.
Qed.

Lemma loadImageAsync_out_of_bounds_witness :
  loadImageAsync 15 gallery =
    (gallery, [loadingError 15 "Image ID out of bounds."%string]).
Proof.
  apply (loadImageAsync_out_of_bounds 15 gallery).
  right. vm_compute. discriminate.
Defined.

(** C7: with a preview size of 0 x 0 the placeholder is null, and the file
    that does not decode ends in loadingError; with no cache attached the
    placeholder is emitted with imageLoaded and stored nowhere. *)
Lemma decode_failure_surfaces :
  (out_of_bounds 0 (self no_preview) = false /\
   cached 0 (self no_preview) = false /\
   0 <= 0 < size (self no_preview) /\
   isNull (QImage_load (at_ 0 (self no_preview))) = true /\
   deferred 0 (self no_preview) =
     (self no_preview, [loadingError 0 "Failed to load or generate image."%string])) /\
  (out_of_bounds 0 (self no_cache) = false /\
   cached 0 (self no_cache) = false /\
   0 <= 0 < size (self no_cache) /\
   isNull (QImage_load (at_ 0 (self no_cache))) = true /\
   deferred 0 (self no_cache) =
     (self no_cache, [imageLoaded 0 (Bitmap.Pixels hd_size (Bitmap.Numbered 0))]) /\
   m_imageCache (fst (deferred 0 (self no_cache))) = None).
Proof.
  split.
  - repeat split; try reflexivity; vm_compute; congruence.
  - repeat split; try reflexivity; vm_compute; congruence.
Qed.

Lemma decode_failure_falls_back_witness :
  snd (deferred 0 (self one_bad_file)) =
    [imageLoaded 0 (Bitmap.Pixels hd_size (Bitmap.Numbered 0))] /\
  m_imageCache (fst (deferred 0 (self one_bad_file))) =
    Some (<[0 := Bitmap.Pixels hd_size (Bitmap.Numbered 0)]> ∅) /\
  cached 0 (fst (deferred 0 (self one_bad_file))) = true.
Proof.
  assert (Hq : @scaled_keeps_own_size Bitmap.t bitmaps)
    by exact (BitmapFacts.bitmap_scaled_keeps_own_size []).
  assert (Hb : out_of_bounds 0 (self one_bad_file) = false) by reflexivity.
  assert (Hc : cached 0 (self one_bad_file) = false) by reflexivity.
  assert (Hi : 0 <= 0 < size (self one_bad_file)) by (vm_compute; split; congruence).
  assert (Hf : isNull (QImage_load (at_ 0 (self one_bad_file))) = true) by reflexivity.
  destruct (decode_failure_falls_back 0 one_bad_file Hq Hb Hc Hi Hf) as [_ [_ [H _]]].
  destruct (H eq_refl) as (_ & Hs & Hcache & _).
  destruct (Hcache ∅ eq_refl) as (Hm & Hin & _).
  split; [exact Hs|]. split; [exact Hm | exact Hin].
Defined.

Lemma imageCount_is_max_witness : imageCount three_files = Z.max 3 15.
Proof.
  refine (proj1 (imageCount_is_max three_files _ _)).
  - vm_compute. discriminate.
  - vm_compute. split; discriminate.
Defined.

End ImageLoaderFacts.

(** ** UINavigator: walks, limits and announcements *)

Module UINavigatorWalks.
Import UINavigator Walk UINavigatorFacts.

Lemma previous_as_mod n :
  in_bounds n ->
  post (previous n) =
    mk ((m_currentImageId n - 1) mod (m_maxImageId n + 1)) (m_maxImageId n).
Proof.
  intros Hb. rewrite (previous_in_bounds_eq n Hb). simpl.
  destruct Hb as [Hc Hm]. f_equal.
  destruct (Z.eqb_spec (m_currentImageId n) 0) as [He|Hne].
  - rewrite He. symmetry.
    replace (0 - 1) with (m_maxImageId n + (-1) * (m_maxImageId n + 1)) by lia.
    rewrite Z_mod_plus_full. apply Z.mod_small. lia.
  - symmetry. apply Z.mod_small. lia.
Qed.

Lemma next_run_closed k : forall n,
  in_bounds n ->
  next_run k n =
    (mk ((m_currentImageId n + Z.of_nat k) mod (m_maxImageId n + 1)) (m_maxImageId n),
     map (fun i => imageIdChanged
                     ((m_currentImageId n + Z.of_nat i) mod (m_maxImageId n + 1)))
         (seq 1 k)).
Proof.
  induction k as [|k IH]; intros n Hb.
  - simpl. destruct Hb as [Hc Hm]. rewrite Z.add_0_r, Z.mod_small by lia.
    destruct n; reflexivity.
  - cbn [next_run]. rewrite (IH _ (next_keeps_in_bounds n Hb)).
    rewrite (next_in_bounds_eq n Hb). cbn [post emitted m_currentImageId m_maxImageId].
    rewrite Zplus_mod_idemp_l.
    replace (m_currentImageId n + 1 + Z.of_nat k)
      with (m_currentImageId n + Z.of_nat (S k)) by lia.
    apply f_equal. cbn [app seq map].
    replace (Z.of_nat 1) with 1 by reflexivity. apply f_equal.
    rewrite <- (seq_shift k 1), map_map. apply map_ext. intros i.
    rewrite Zplus_mod_idemp_l.
    replace (m_currentImageId n + 1 + Z.of_nat i)
      with (m_currentImageId n + Z.of_nat (S i)) by lia.
    reflexivity.
Qed.

Lemma previous_run_closed k : forall n,
  in_bounds n ->
  previous_run k n =
    (mk ((m_currentImageId n - Z.of_nat k) mod (m_maxImageId n + 1)) (m_maxImageId n),
     map (fun i => imageIdChanged
                     ((m_currentImageId n - Z.of_nat i) mod (m_maxImageId n + 1)))
         (seq 1 k)).
Proof.
  induction k as [|k IH]; intros n Hb.
  - simpl. destruct Hb as [Hc Hm]. rewrite Z.sub_0_r, Z.mod_small by lia.
    destruct n; reflexivity.
  - cbn [previous_run]. rewrite (IH _ (previous_keeps_in_bounds n Hb)).
    pose proof (previous_as_mod n Hb) as Hp.
    rewrite (previous_in_bounds_eq n Hb) in *.
    cbn [post emitted m_currentImageId m_maxImageId] in *.
    injection Hp as Hp. rewrite Hp.
    rewrite Zminus_mod_idemp_l.
    replace (m_currentImageId n - 1 - Z.of_nat k)
      with (m_currentImageId n - Z.of_nat (S k)) by lia.
    apply f_equal. cbn [app seq map].
    replace (Z.of_nat 1) with 1 by reflexivity. apply f_equal.
    rewrite <- (seq_shift k 1), map_map. apply map_ext. intros i.
    rewrite Zminus_mod_idemp_l.
    replace (m_currentImageId n - 1 - Z.of_nat i)
      with (m_currentImageId n - Z.of_nat (S i)) by lia.
    reflexivity.
Qed.

(** X1.  When the constructor was given a non-negative maxImageId, every
    state reached through next(), previous() and setMaxImageId() keeps
    0 <= currentId <= maxId, and in every such state next() and previous()
    return true. *)
Theorem nonneg_ctor_keeps_bounds n :
  reachable_nonneg n ->
  0 <= m_currentImageId n <= m_maxImageId n /\
  ret (next n) = true /\ ret (previous n) = true.
Proof.
  intros Hr. pose proof (reachable_nonneg_in_bounds n Hr) as Hb.
  rewrite (next_in_bounds_eq n Hb), (previous_in_bounds_eq n Hb).
  destruct Hb as [Hc _]. repeat split; try reflexivity; lia.
Qed.

(** X2.  In a state with 0 <= currentId <= maxId, k calls of next() leave
    currentId = (currentId + k) mod (maxId + 1), and the signals they emit
    are, in order, imageIdChanged((currentId + i) mod (maxId + 1)) for
    i = 1..k, one for each call; after maxId + 1 calls the navigator is
    back in the state it started from. *)
Theorem repeated_next_announces n k :
  0 <= m_currentImageId n <= m_maxImageId n ->
  m_maxImageId n <= Int.INT_MAX ->
  fst (next_run k n) =
    mk ((m_currentImageId n + Z.of_nat k) mod (m_maxImageId n + 1)) (m_maxImageId n) /\
  snd (next_run k n) =
    map (fun i => imageIdChanged
                    ((m_currentImageId n + Z.of_nat i) mod (m_maxImageId n + 1)))
        (seq 1 k) /\
  fst (next_run (Z.to_nat (m_maxImageId n + 1)) n) = n.
Proof.
  intros Hc Hm. assert (Hb : in_bounds n) by (split; assumption).
  rewrite !(next_run_closed _ n Hb). cbn [fst snd].
  split; [reflexivity|]. split; [reflexivity|].
  rewrite Z2Nat.id by lia.
  replace (m_currentImageId n + (m_maxImageId n + 1))
    with (m_currentImageId n + 1 * (m_maxImageId n + 1)) by lia.
  rewrite Z_mod_plus_full, Z.mod_small by lia. destruct n; reflexivity.
Qed.

(** X3.  In a state with 0 <= currentId <= maxId, k calls of previous()
    leave currentId = (currentId - k) mod (maxId + 1), and the signals
    they emit are, in order, imageIdChanged((currentId - i) mod
    (maxId + 1)) for i = 1..k, one for each call; after maxId + 1 calls
    the navigator is back in the state it started from. *)
Theorem repeated_previous_announces n k :
  0 <= m_currentImageId n <= m_maxImageId n ->
  m_maxImageId n <= Int.INT_MAX ->
  fst (previous_run k n) =
    mk ((m_currentImageId n - Z.of_nat k) mod (m_maxImageId n + 1)) (m_maxImageId n) /\
  snd (previous_run k n) =
    map (fun i => imageIdChanged
                    ((m_currentImageId n - Z.of_nat i) mod (m_maxImageId n + 1)))
        (seq 1 k) /\
  fst (previous_run (Z.to_nat (m_maxImageId n + 1)) n) = n.
Proof.
  intros Hc Hm. assert (Hb : in_bounds n) by (split; assumption).
  rewrite !(previous_run_closed _ n Hb). cbn [fst snd].
  split; [reflexivity|]. split; [reflexivity|].
  rewrite Z2Nat.id by lia.
  replace (m_currentImageId n - (m_maxImageId n + 1))
    with (m_currentImageId n + (-1) * (m_maxImageId n + 1)) by lia.
  rewrite Z_mod_plus_full, Z.mod_small by lia. destruct n; reflexivity.
Qed.

(** X4.  After setMaxImageId(maxId), maxImageId() is max(0, maxId) whatever
    the state was; a second call with the same argument changes nothing
    and emits nothing.  Afterwards next() and previous() return true: the
    call never leaves the navigator in the state without images. *)
Theorem setMaxImageId_settles maxId n :
  m_maxImageId (post (setMaxImageId maxId n)) = Z.max 0 maxId /\
  setMaxImageId maxId (post (setMaxImageId maxId n)) =
    Outcome tt (post (setMaxImageId maxId n)) [] /\
  ret (next (post (setMaxImageId maxId n))) = true /\
  ret (previous (post (setMaxImageId maxId n))) = true.
Proof.
  assert (H1 : m_maxImageId (post (setMaxImageId maxId n)) = Z.max 0 maxId).
  { unfold setMaxImageId.
    destruct (Z.ltb_spec maxId 0);
      match goal with |- context [negb (?a =? ?b)] => destruct (Z.eqb_spec a b) end;
      simpl; try lia;
      match goal with |- context [?a >? ?b] => destruct (Z.gtb_spec a b) end;
      simpl; lia. }
  split; [exact H1|]. split.
  - unfold setMaxImageId at 1. rewrite H1.
    destruct (Z.ltb_spec maxId 0).
    + replace (Z.max 0 maxId) with 0 by lia. reflexivity.
    + replace (Z.max 0 maxId) with maxId by lia. rewrite Z.eqb_refl. reflexivity.
  - unfold next, previous. rewrite H1.
    destruct (Z.ltb_spec (Z.max 0 maxId) 0); [lia|]. split; reflexivity.
Qed.

(** X5.  In a state with 0 <= currentId <= maxId, next() and previous()
    each emit exactly one imageIdChanged, and each leaves currentId as it
    was exactly when maxId = 0: with a single image the unchanged id 0 is
    announced again. *)
Theorem navigation_announces_even_unchanged n :
  0 <= m_currentImageId n <= m_maxImageId n ->
  m_maxImageId n <= Int.INT_MAX ->
  announced (emitted (next n)) = [m_currentImageId (post (next n))] /\
  announced (emitted (previous n)) = [m_currentImageId (post (previous n))] /\
  (m_currentImageId (post (next n)) = m_currentImageId n <-> m_maxImageId n = 0) /\
  (m_currentImageId (post (previous n)) = m_currentImageId n <-> m_maxImageId n = 0).
Proof.
  intros Hc Hm. assert (Hb : in_bounds n) by (split; assumption).
  rewrite (next_in_bounds_eq n Hb), (previous_in_bounds_eq n Hb). simpl.
  split; [reflexivity|]. split; [reflexivity|]. split.
  - destruct (Z.eq_dec (m_currentImageId n) (m_maxImageId n)) as [He|Hne].
    + rewrite He, Z_mod_same_full. lia.
    + rewrite Z.mod_small by lia. lia.
  - destruct (Z.eqb_spec (m_currentImageId n) 0); lia.
Qed.

(** X6.  setMaxImageId emits a signal exactly when it changes currentId,
    in every state and for every argument; the signal, when there is one,
    carries the currentId the call leaves behind. *)
Theorem setMaxImageId_announces_iff_changed maxId n :
  (emitted (setMaxImageId maxId n) = [] <->
   m_currentImageId (post (setMaxImageId maxId n)) = m_currentImageId n) /\
  (emitted (setMaxImageId maxId n) = [] \/
   announced (emitted (setMaxImageId maxId n)) =
     [m_currentImageId (post (setMaxImageId maxId n))]).
Proof.
  unfold setMaxImageId.
  destruct (if maxId <? 0 then 0 else maxId) eqn:E; clear E;
    match goal with |- context [negb (?a =? ?b)] => destruct (Z.eqb_spec a b) end;
    simpl; try (split; [tauto | left; reflexivity]);
    match goal with |- context [?a >? ?b] => destruct (Z.gtb_spec a b) end;
    simpl; (split; [split; [discriminate || (intros; lia) | intros; lia || reflexivity]
                   | (left; reflexivity) || (right; reflexivity)]).
Qed.

Lemma nonneg_ctor_keeps_bounds_witness :
  0 <= m_currentImageId (post (next (ctor 7 4))) <= m_maxImageId (post (next (ctor 7 4))) /\
  ret (next (post (next (ctor 7 4)))) = true /\
  ret (previous (post (next (ctor 7 4)))) = true.
Proof.
  apply (nonneg_ctor_keeps_bounds (post (next (ctor 7 4)))).
  apply reachn_next, reachn_ctor;
    unfold Int.in_range, Int.INT_MIN, Int.INT_MAX; lia.
Defined.

Lemma repeated_next_announces_witness :
  fst (next_run 7 (mk 3 4)) = mk 0 4 /\
  snd (next_run 7 (mk 3 4)) =
    [imageIdChanged 4; imageIdChanged 0; imageIdChanged 1; imageIdChanged 2;
     imageIdChanged 3; imageIdChanged 4; imageIdChanged 0] /\
  fst (next_run 5 (mk 3 4)) = mk 3 4.
Proof.
  apply (repeated_next_announces (mk 3 4) 7);
    unfold Int.INT_MAX; simpl; lia.
Defined.

Lemma repeated_previous_announces_witness :
  fst (previous_run 7 (mk 3 4)) = mk 1 4 /\
  snd (previous_run 7 (mk 3 4)) =
    [imageIdChanged 2; imageIdChanged 1; imageIdChanged 0; imageIdChanged 4;
     imageIdChanged 3; imageIdChanged 2; imageIdChanged 1] /\
  fst (previous_run 5 (mk 3 4)) = mk 3 4.
Proof.
  apply (repeated_previous_announces (mk 3 4) 7);
    unfold Int.INT_MAX; simpl; lia.
Defined.

Lemma navigation_announces_even_unchanged_witness :
  announced (emitted (next (mk 0 0))) = [0] /\
  announced (emitted (previous (mk 0 0))) = [0] /\
  (m_currentImageId (post (next (mk 0 0))) = 0 <-> 0 = 0) /\
  (m_currentImageId (post (previous (mk 0 0))) = 0 <-> 0 = 0).
Proof.
  apply (navigation_announces_even_unchanged (mk 0 0));
    unfold Int.INT_MAX; simpl; lia.
Defined.

End UINavigatorWalks.

(** ** ImageCache: how the calls compose *)

Module ImageCacheAlgebra.
Import ImageCache ImageCacheFacts.

Section WithImages.
Context {QImage : Type} `{!QtImage QImage}.
Implicit Types (c : gmap Z QImage) (image a b : QImage) (id : Z).

(** Two caches with the same entry at [id] answer alike at [id]. *)
Lemma same_entry_same_answers id c c' :
  c !! id = c' !! id ->
  contains id c = contains id c' /\ getImage id c = getImage id c'.
Proof.
  intros H. unfold getImage, value, contains. rewrite H. split; reflexivity.
Qed.

(** X7.  After removeImage(id), contains(id) is false and getImage(id) is
    the null image.  Removing an id that is not contained leaves the cache
    as it was, and storing an image under an id that was not contained and
    removing it again gives back the cache as it was. *)
Theorem removeImage_forgets id c :
  contains id (removeImage id c) = false /\
  getImage id (removeImage id c) = QImage_null /\
  (contains id c = false -> removeImage id c = c) /\
  (forall image, contains id c = false -> removeImage id (setImage id image c) = c).
Proof.
  assert (Hgone : removeImage id c !! id = None) by apply lookup_delete_eq.
  split; [now apply contains_false|]. split; [now apply getImage_absent|].
  split.
  - intros H. apply contains_false in H. now apply delete_id.
  - intros image H. apply contains_false in H. unfold setImage, removeImage.
    destruct (isNull image).
    + now apply delete_id.
    + rewrite delete_insert_eq. now apply delete_id.
Qed.

(** X8.  After clear(), no id is contained and getImage returns the null
    image for every id; a non-null image stored next is the only entry. *)
Theorem clear_forgets_all c :
  (forall id, contains id (clear c) = false /\ getImage id (clear c) = QImage_null) /\
  (forall id id' image, isNull image = false ->
     contains id' (setImage id image (clear c)) = bool_decide (id' = id)).
Proof.
  split.
  - intros id. assert (H : clear c !! id = None) by apply lookup_empty.
    split; [now apply contains_false | now apply getImage_absent].
  - intros id id' image Hn. unfold setImage, clear, contains. rewrite Hn.
    destruct (decide (id' = id)) as [->|Hne].
    + rewrite lookup_insert_eq. rewrite !bool_decide_eq_true_2; eauto.
    + rewrite lookup_insert_ne, lookup_empty by congruence.
      rewrite !bool_decide_eq_false_2; [reflexivity | assumption |].
      intros [x Hx]. discriminate Hx.
Qed.

(** X9.  Storing a non-null image under an id that already has one replaces
    it: the cache is the one obtained by storing only the second image,
    and getImage returns the second image.  A null second image replaces
    nothing: getImage still returns the first. *)
Theorem setImage_last_write_wins id a b c :
  isNull a = false ->
  (isNull b = false ->
     setImage id b (setImage id a c) = setImage id b c /\
     getImage id (setImage id b (setImage id a c)) = b) /\
  (isNull b = true ->
     setImage id b (setImage id a c) = setImage id a c /\
     getImage id (setImage id b (setImage id a c)) = a).
Proof.
  intros Ha. split; intros Hb; unfold setImage; rewrite Ha, Hb.
  - rewrite insert_insert_eq. split; [reflexivity|].
    apply getImage_stored, lookup_insert_eq.
  - split; [reflexivity|]. apply getImage_stored, lookup_insert_eq.
Qed.

(** X10.  Calls of setImage on different ids commute. *)
Theorem setImage_commutes id1 id2 a b c :
  id1 <> id2 ->
  setImage id1 a (setImage id2 b c) = setImage id2 b (setImage id1 a c).
Proof.
  intros Hne. unfold setImage. destruct (isNull a), (isNull b); try reflexivity.
  now apply insert_insert_ne.
Qed.

(** X11.  In a cache that holds no null image, and so in every cache built
    from the constructor by setImage, removeImage and clear, contains(id)
    is true exactly when getImage(id) is not null. *)
Theorem contains_iff_getImage_not_null id :
  (forall c, no_null_entry c -> contains id c = negb (isNull (getImage id c))) /\
  (forall os, contains id (run_ops os ctor) =
              negb (isNull (getImage id (run_ops os ctor)))).
Proof.
  assert (H : forall c, no_null_entry c ->
                        contains id c = negb (isNull (getImage id c))).
  { intros c Hc. destruct (c !! id) as [image|] eqn:E.
    - rewrite (getImage_stored _ _ _ E), (Hc _ _ E).
      apply contains_true. rewrite E. eauto.
    - rewrite (getImage_absent _ _ E), isNull_QImage_null.
      now apply contains_false. }
  split; [exact H|]. intros os. apply H, run_ops_no_null, ctor_no_null.
Qed.

(** X12.  setImage(id, image) and removeImage(id) change nothing at any
    other id: contains and getImage answer there as before. *)
Theorem other_ids_untouched id id' image c :
  id' <> id ->
  (contains id' (setImage id image c) = contains id' c /\
   getImage id' (setImage id image c) = getImage id' c) /\
  (contains id' (removeImage id c) = contains id' c /\
   getImage id' (removeImage id c) = getImage id' c).
Proof.
  intros Hne. split; apply same_entry_same_answers.
  - unfold setImage. destruct (isNull image); [reflexivity|].
    apply lookup_insert_ne. congruence.
  - unfold removeImage. apply lookup_delete_ne. congruence.
Qed.

End WithImages.

Import Examples.

Lemma setImage_last_write_wins_witness :
  (isNull (Bitmap.Pixels hd_size (Bitmap.Numbered 1)) = false ->
     setImage 7 (Bitmap.Pixels hd_size (Bitmap.Numbered 1)) (setImage 7 sample_image ∅) =
       setImage 7 (Bitmap.Pixels hd_size (Bitmap.Numbered 1)) ∅ /\
     getImage 7 (setImage 7 (Bitmap.Pixels hd_size (Bitmap.Numbered 1))
                   (setImage 7 sample_image ∅)) =
       Bitmap.Pixels hd_size (Bitmap.Numbered 1)) /\
  (isNull (Bitmap.Pixels hd_size (Bitmap.Numbered 1)) = true ->
     setImage 7 (Bitmap.Pixels hd_size (Bitmap.Numbered 1)) (setImage 7 sample_image ∅) =
       setImage 7 sample_image ∅ /\
     getImage 7 (setImage 7 (Bitmap.Pixels hd_size (Bitmap.Numbered 1))
                   (setImage 7 sample_image ∅)) = sample_image).
Proof.
  apply (setImage_last_write_wins 7 sample_image
           (Bitmap.Pixels hd_size (Bitmap.Numbered 1)) ∅).
  reflexivity.
Defined.

Lemma setImage_commutes_witness :
  setImage 1 sample_image
    (setImage 2 (Bitmap.Pixels hd_size (Bitmap.Numbered 2)) (<[5 := sample_image]> ∅)) =
  setImage 2 (Bitmap.Pixels hd_size (Bitmap.Numbered 2))
    (setImage 1 sample_image (<[5 := sample_image]> ∅)).
Proof.
  apply (setImage_commutes 1 2 sample_image (Bitmap.Pixels hd_size (Bitmap.Numbered 2))
           (<[5 := sample_image]> ∅)).
  discriminate.
Defined.

Lemma other_ids_untouched_witness :
  (contains 3 (setImage 7 sample_image (<[3 := sample_image]> ∅)) =
     contains 3 (<[3 := sample_image]> ∅ : gmap Z Bitmap.t) /\
   getImage 3 (setImage 7 sample_image (<[3 := sample_image]> ∅)) =
     getImage 3 (<[3 := sample_image]> ∅ : gmap Z Bitmap.t)) /\
  (contains 3 (removeImage 7 (<[3 := sample_image]> ∅ : gmap Z Bitmap.t)) =
     contains 3 (<[3 := sample_image]> ∅ : gmap Z Bitmap.t) /\
   getImage 3 (removeImage 7 (<[3 := sample_image]> ∅ : gmap Z Bitmap.t)) =
     getImage 3 (<[3 := sample_image]> ∅ : gmap Z Bitmap.t)).
Proof.
  apply (other_ids_untouched 7 3 sample_image (<[3 := sample_image]> ∅)). discriminate.
Defined.

End ImageCacheAlgebra.

(** ** ImageLoader: the closure, the cache and the queue *)

Module ImageLoaderRuns.
Import ImageLoader ImageLoaderFacts Delivery.

Section WithImages.
Context {QImage : Type} `{!QtImage QImage}.
Implicit Types (l : t (QImage := QImage)) (p : process (QImage := QImage)) (id : Z).
Implicit Types (c : gmap Z QImage) (image : QImage).

Lemma deferred_cases id l :
  (isNull (obtain id l) = false /\
   snd (deferred id l) = [imageLoaded id (delivered id l)] /\
   m_imageCache (fst (deferred id l)) =
     ImageCache.setImage id (delivered id l) <$> m_imageCache l) \/
  (isNull (obtain id l) = true /\
   deferred id l = (l, [loadingError id "Failed to load or generate image."%string])).
Proof.
  unfold deferred, delivered. destruct (isNull (obtain id l)) eqn:E; simpl.
  - right. split; reflexivity.
  - left. split; [reflexivity|]. split; [reflexivity|].
    destruct (m_imageCache l) eqn:Ec; simpl; [reflexivity | exact Ec].
Qed.

Lemma deferred_config id l :
  m_imageDirPath (fst (deferred id l)) = m_imageDirPath l /\
  m_maxConfiguredImages (fst (deferred id l)) = m_maxConfiguredImages l /\
  m_maxPreviewSize (fst (deferred id l)) = m_maxPreviewSize l /\
  m_imagePaths (fst (deferred id l)) = m_imagePaths l.
Proof.
  unfold deferred. destruct (isNull (obtain id l)); simpl.
  - repeat split.
  - destruct (m_imageCache l); simpl; repeat split.
Qed.

Lemma fire_all_config ts : forall l,
  m_imageDirPath (fst (fire_all ts l)) = m_imageDirPath l /\
  m_maxConfiguredImages (fst (fire_all ts l)) = m_maxConfiguredImages l /\
  m_maxPreviewSize (fst (fire_all ts l)) = m_maxPreviewSize l /\
  m_imagePaths (fst (fire_all ts l)) = m_imagePaths l.
Proof.
  induction ts as [|id ts IH]; intros l; simpl; [repeat split|].
  pose proof (deferred_config id l) as Hd.
  destruct (deferred id l) as [l1 out1]. simpl in Hd.
  specialize (IH l1). destruct (fire_all ts l1) as [l2 out2]. simpl in *.
  destruct Hd as (A1 & A2 & A3 & A4), IH as (B1 & B2 & B3 & B4).
  repeat split; congruence.
Qed.

Lemma imageCount_config l l' :
  m_maxConfiguredImages l' = m_maxConfiguredImages l ->
  m_imagePaths l' = m_imagePaths l ->
  imageCount l' = imageCount l.
Proof. intros H1 H2. unfold imageCount, size. rewrite H1, H2. reflexivity. Qed.

Lemma deferred_cached_other id id' l :
  id' <> id -> cached id' (fst (deferred id l)) = cached id' l.
Proof.
  intros Hne. unfold cached.
  destruct (deferred_cases id l) as [(_ & _ & Hc)|(_ & ->)]; [|reflexivity].
  rewrite Hc. destruct (m_imageCache l) as [c|]; simpl; [|reflexivity].
  unfold ImageCache.contains, ImageCache.setImage.
  destruct (isNull (delivered id l)); [reflexivity|].
  rewrite lookup_insert_ne by congruence. reflexivity.
Qed.

Lemma deferred_cached_stays id id' l :
  cached id' l = true -> cached id' (fst (deferred id l)) = true.
Proof.
  intros Hc. destruct (Z.eq_dec id' id) as [->|Hne].
  - unfold cached in *.
    destruct (deferred_cases id l) as [(_ & _ & Hd)|(_ & ->)]; [|exact Hc].
    rewrite Hd. destruct (m_imageCache l) as [c|]; simpl; [|discriminate Hc].
    unfold ImageCache.setImage. destruct (isNull (delivered id l)); [exact Hc|].
    apply ImageCacheFacts.contains_true. rewrite lookup_insert_eq. eauto.
  - rewrite deferred_cached_other; assumption.
Qed.

Lemma deferred_no_null id l c :
  m_imageCache l = Some c -> ImageCache.no_null_entry c ->
  exists c', m_imageCache (fst (deferred id l)) = Some c' /\
             ImageCache.no_null_entry c'.
Proof.
  intros Hc Hn.
  destruct (deferred_cases id l) as [(_ & _ & Hd)|(_ & ->)]; [|eauto].
  rewrite Hd, Hc. simpl. eexists. split; [reflexivity|].
  apply (ImageCacheFacts.run_op_no_null (ImageCache.SetImage id (delivered id l))).
  exact Hn.
Qed.

(** X13.  With a table length and a configured maximum that are [int]
    values, imageCount() is at least 0, at least the table length and at
    least the configured maximum: every index of the path table and every
    id below the configured maximum passes the bounds check. *)
Theorem imageCount_covers_table_and_maximum l :
  size l <= Int.INT_MAX ->
  Int.in_range (m_maxConfiguredImages l) ->
  0 <= imageCount l /\ size l <= imageCount l /\
  m_maxConfiguredImages l <= imageCount l /\
  (forall id, 0 <= id < size l -> out_of_bounds id l = false) /\
  (forall id, 0 <= id < m_maxConfiguredImages l -> out_of_bounds id l = false).
Proof.
  intros Hs Hm. pose proof (size_nonneg l) as H0.
  assert (He : imageCount l = Z.max (size l) (m_maxConfiguredImages l)).
  { unfold imageCount. apply IntFacts.wrap_id.
    unfold Int.in_range, Int.INT_MIN, Int.INT_MAX in *. lia. }
  assert (Hoob : forall id, 0 <= id < imageCount l -> out_of_bounds id l = false).
  { intros id Hid. unfold out_of_bounds. apply orb_false_iff. split.
    - apply Z.ltb_ge. lia.
    - rewrite Z.geb_leb. apply Z.leb_gt. lia. }
  repeat split; try lia; intros id Hid; apply Hoob; lia.
Qed.

Lemma cache_hit id p c image :
  out_of_bounds id (self p) = false ->
  m_imageCache (self p) = Some c ->
  c !! id = Some image ->
  loadImageAsync id p = (p, [imageLoaded id image]).
Proof.
  intros Hb Hc Hi. unfold loadImageAsync, cached. rewrite Hb, Hc.
  replace (ImageCache.contains id c) with true.
  - rewrite (ImageCacheFacts.getImage_stored _ _ _ Hi). reflexivity.
  - symmetry. apply ImageCacheFacts.contains_true. rewrite Hi. eauto.
Qed.

(** X14.  For an in-bounds id whose image is in the cache, loadImageAsync
    emits imageLoaded with exactly the stored image before it returns,
    starts no timer and leaves the loader and the cache as they were. *)
Theorem cached_request_served_immediately id p c image :
  out_of_bounds id (self p) = false ->
  m_imageCache (self p) = Some c ->
  c !! id = Some image ->
  loadImageAsync id p = (p, [imageLoaded id image]) /\
  timers (fst (loadImageAsync id p)) = timers p.
Proof.
  intros Hb Hc Hi. rewrite (cache_hit id p c image Hb Hc Hi).
  split; reflexivity.
Qed.

(** X15.  With a cache attached and no timer pending, a request for an
    in-bounds id whose image and scaled image are not null ends, once the
    event loop has run, with imageLoaded for the scaled image; the same
    request made again is then answered with that same image before the
    call returns, and starts no timer. *)
Theorem second_request_served_from_cache id p c :
  timers p = [] ->
  out_of_bounds id (self p) = false ->
  m_imageCache (self p) = Some c ->
  c !! id = None ->
  isNull (obtain id (self p)) = false ->
  isNull (delivered id (self p)) = false ->
  snd (request id p) = [imageLoaded id (delivered id (self p))] /\
  loadImageAsync id (fst (request id p)) =
    (fst (request id p), [imageLoaded id (delivered id (self p))]).
Proof.
  intros Ht Hb Hc Hi Ho Hd.
  assert (Hnc : cached id (self p) = false).
  { unfold cached. rewrite Hc. now apply ImageCacheFacts.contains_false. }
  unfold request. rewrite (loadImageAsync_deferred id p Hb Hnc), Ht. simpl.
  destruct (deferred_cases id (self p)) as [(_ & Hs & Hca)|(Hnull & _)];
    [|congruence].
  pose proof (deferred_config id (self p)) as (_ & Hm & _ & Hp).
  destruct (deferred id (self p)) as [l1 out1]. simpl in *. subst out1.
  split; [reflexivity|].
  rewrite Hc in Hca. simpl in Hca.
  apply (cache_hit id (mkProcess l1 [])
           (ImageCache.setImage id (delivered id (self p)) c)).
  - simpl. unfold out_of_bounds in *.
    rewrite (imageCount_config (self p) l1 Hm Hp). exact Hb.
  - exact Hca.
  - now apply ImageCacheFacts.setImage_stores.
Qed.

(** X16.  The closure tests for a null image before it scales, not after:
    when the obtained image is not null but its scaled version is, the
    closure still emits imageLoaded, carrying the null image, and the
    cache is left as it was, so the id is not cached afterwards. *)
Theorem null_after_scaling_is_announced id l c :
  m_imageCache l = Some c ->
  c !! id = None ->
  isNull (obtain id l) = false ->
  isNull (delivered id l) = true ->
  snd (deferred id l) = [imageLoaded id (delivered id l)] /\
  m_imageCache (fst (deferred id l)) = Some c /\
  cached id (fst (deferred id l)) = false.
Proof.
  intros Hc Hi Ho Hd.
  destruct (deferred_cases id l) as [(_ & Hs & Hca)|(Hnull & _)]; [|congruence].
  rewrite Hc in Hca. simpl in Hca. unfold ImageCache.setImage in Hca.
  rewrite Hd in Hca. split; [exact Hs|]. split; [exact Hca|].
  unfold cached. rewrite Hca. now apply ImageCacheFacts.contains_false.
Qed.

(** X17.  The event loop runs the pending closures in the order their
    timers were started, and each emits one notification for the id it
    captured: the ids of the notifications are the ids requested, in the
    same order. *)
Theorem fire_all_in_request_order ts l :
  map signal_id (snd (fire_all ts l)) = ts.
Proof.
  revert l. induction ts as [|id ts IH]; intros l; simpl; [reflexivity|].
  destruct (deferred_one_signal id l) as [s [Hs Hid]].
  destruct (deferred id l) as [l1 out1]. simpl in Hs. subst out1.
  specialize (IH l1). destruct (fire_all ts l1) as [l2 out2]. simpl in *.
  rewrite Hid, IH. reflexivity.
Qed.

(** X18.  Running closures changes nothing of the loader but its cache:
    directory, configured maximum, preview size and path table stay, and
    so does imageCount().  An id that was cached stays cached, and an id
    for which no closure ran is cached afterwards exactly if it was
    before. *)
Theorem fire_all_only_fills_cache ts l :
  (m_imageDirPath (fst (fire_all ts l)) = m_imageDirPath l /\
   m_maxConfiguredImages (fst (fire_all ts l)) = m_maxConfiguredImages l /\
   m_maxPreviewSize (fst (fire_all ts l)) = m_maxPreviewSize l /\
   m_imagePaths (fst (fire_all ts l)) = m_imagePaths l) /\
  imageCount (fst (fire_all ts l)) = imageCount l /\
  (forall id, cached id l = true -> cached id (fst (fire_all ts l)) = true) /\
  (forall id, ~ In id ts -> cached id (fst (fire_all ts l)) = cached id l).
Proof.
  pose proof (fire_all_config ts l) as Hcfg.
  split; [exact Hcfg|]. split.
  { destruct Hcfg as (_ & Hm & _ & Hp). now apply imageCount_config. }
  clear Hcfg. revert l. induction ts as [|id0 ts IH]; intros l; simpl.
  - split; intros; [assumption | reflexivity].
  - pose proof (fun id' => deferred_cached_stays id0 id' l) as Hstay.
    pose proof (fun id' => deferred_cached_other id0 id' l) as Hother.
    destruct (deferred id0 l) as [l1 out1]. simpl in *.
    specialize (IH l1). destruct (fire_all ts l1) as [l2 out2]. simpl in *.
    destruct IH as [IH1 IH2]. split.
    + intros id Hc. apply IH1, Hstay, Hc.
    + intros id Hn. rewrite IH2 by tauto. apply Hother. intros ->. tauto.
Qed.

(** X19.  When the attached cache holds no null image, it holds none
    after any number of closures have run, and an imageLoaded that
    loadImageAsync emits before returning never carries a null image. *)
Theorem loader_keeps_cache_free_of_null ts l c :
  m_imageCache l = Some c ->
  ImageCache.no_null_entry c ->
  (exists c', m_imageCache (fst (fire_all ts l)) = Some c' /\
              ImageCache.no_null_entry c') /\
  (forall id pending image,
     snd (loadImageAsync id (mkProcess l pending)) = [imageLoaded id image] ->
     isNull image = false).
Proof.
  intros Hc Hn. split.
  - revert l c Hc Hn. induction ts as [|id ts IH]; intros l c Hc Hn; simpl.
    + eauto.
    + destruct (deferred_no_null id l c Hc Hn) as [c1 [Hc1 Hn1]].
      destruct (deferred id l) as [l1 out1]. simpl in *.
      specialize (IH l1 c1 Hc1 Hn1).
      destruct (fire_all ts l1) as [l2 out2]. exact IH.
  - intros id pending image. unfold loadImageAsync. simpl.
    destruct (out_of_bounds id l); simpl; [discriminate|].
    unfold cached. rewrite Hc.
    destruct (ImageCache.contains id c) eqn:E; simpl; [|discriminate].
    intros [= <-]. apply ImageCacheFacts.contains_true in E.
    destruct E as [image E].
    rewrite (ImageCacheFacts.getImage_stored _ _ _ E). exact (Hn _ _ E).
Qed.

(** X20.  For an id at or beyond the end of the path table, and so for
    every id when no file was found, the closure reads no file: it emits
    imageLoaded with the scaled placeholder of that id when the
    placeholder is not null, and loadingError when it is. *)
Theorem beyond_table_gets_placeholder id l :
  size l <= id ->
  obtain id l = generatePlaceholderImage id l /\
  (isNull (generatePlaceholderImage id l) = false ->
     snd (deferred id l) =
       [imageLoaded id (QImage_scaled (generatePlaceholderImage id l)
                                      (m_maxPreviewSize l))]) /\
  (isNull (generatePlaceholderImage id l) = true ->
     deferred id l =
       (l, [loadingError id "Failed to load or generate image."%string])).
Proof.
  intros Hid.
  assert (Ho : obtain id l = generatePlaceholderImage id l).
  { unfold obtain. destruct (Z.ltb_spec id (size l)); [lia | reflexivity]. }
  split; [exact Ho|].
  split; intros Hn; unfold deferred; rewrite Ho, Hn; reflexivity.
Qed.

(** X21.  For an id that indexes the path table, when the file at that
    index decodes, the closure emits imageLoaded with the scaled decoded
    image; no placeholder takes its place. *)
Theorem decoded_file_is_delivered id l path :
  0 <= id ->
  m_imagePaths l !! Z.to_nat id = Some path ->
  isNull (QImage_load path) = false ->
  snd (deferred id l) =
    [imageLoaded id (QImage_scaled (QImage_load path) (m_maxPreviewSize l))].
Proof.
  intros H0 Hp Hn.
  assert (Hlt : id < size l).
  { apply lookup_lt_Some in Hp. unfold size. lia. }
  unfold deferred, obtain, at_.
  destruct (Z.ltb_spec id (size l)); [|lia].
  rewrite Hp. simpl. rewrite Hn, Hn. reflexivity.
Qed.

End WithImages.

Import Examples Examples2.

Lemma imageCount_covers_table_and_maximum_witness :
  0 <= imageCount three_files /\ size three_files <= imageCount three_files /\
  m_maxConfiguredImages three_files <= imageCount three_files /\
  (forall id, 0 <= id < size three_files -> out_of_bounds id three_files = false) /\
  (forall id, 0 <= id < m_maxConfiguredImages three_files ->
              out_of_bounds id three_files = false).
Proof.
  apply (imageCount_covers_table_and_maximum three_files).
  - vm_compute. discriminate.
  - vm_compute. split; discriminate.
Defined.

Lemma cached_request_served_immediately_witness :
  loadImageAsync 2 warm = (warm, [imageLoaded 2 sample_image]) /\
  timers (fst (loadImageAsync 2 warm)) = timers warm.
Proof.
  apply (cached_request_served_immediately 2 warm (<[2 := sample_image]> ∅) sample_image);
    reflexivity.
Defined.

Lemma second_request_served_from_cache_witness :
  snd (request 3 gallery) = [imageLoaded 3 (delivered 3 (self gallery))] /\
  loadImageAsync 3 (fst (request 3 gallery)) =
    (fst (request 3 gallery), [imageLoaded 3 (delivered 3 (self gallery))]).
Proof.
  apply (second_request_served_from_cache 3 gallery ∅); reflexivity.
Defined.

Lemma null_after_scaling_is_announced_witness :
  snd (@deferred _ with_a 0 good_file_no_preview) = [imageLoaded 0 Bitmap.Null] /\
  m_imageCache (fst (@deferred _ with_a 0 good_file_no_preview)) = Some ∅ /\
  cached 0 (fst (@deferred _ with_a 0 good_file_no_preview)) = false.
Proof.
  apply (@null_after_scaling_is_announced _ with_a 0 good_file_no_preview ∅);
    reflexivity.
Defined.

Lemma loader_keeps_cache_free_of_null_witness :
  (exists c', m_imageCache (fst (fire_all [3; 4] (self gallery))) = Some c' /\
              ImageCache.no_null_entry c') /\
  (forall id pending image,
     snd (loadImageAsync id (mkProcess (self gallery) pending)) = [imageLoaded id image] ->
     isNull image = false).
Proof.
  apply (loader_keeps_cache_free_of_null [3; 4] (self gallery) ∅).
  - reflexivity.
  - apply ImageCacheFacts.ctor_no_null.
Defined.

Lemma beyond_table_gets_placeholder_witness :
  obtain 3 (self gallery) = Bitmap.Pixels hd_size (Bitmap.Numbered 3) /\
  (isNull (generatePlaceholderImage 3 (self gallery)) = false ->
     snd (deferred 3 (self gallery)) =
       [imageLoaded 3 (Bitmap.Pixels hd_size (Bitmap.Numbered 3))]) /\
  (isNull (generatePlaceholderImage 3 (self gallery)) = true ->
     deferred 3 (self gallery) =
       (self gallery, [loadingError 3 "Failed to load or generate image."%string])).
Proof.
  refine (beyond_table_gets_placeholder 3 (self gallery) _).
  vm_compute. discriminate.
Defined.

Lemma decoded_file_is_delivered_witness :
  snd (@deferred _ with_a 0 one_good_file) =
    [imageLoaded 0 (Bitmap.Pixels (mkQSize 1440 1080) (Bitmap.FromFile "images/a.png"))].
Proof.
  refine (@decoded_file_is_delivered _ with_a 0 one_good_file "images/a.png" _ _ _).
  - lia.
  - reflexivity.
  - reflexivity.
Defined.

End ImageLoaderRuns.

(** ** MainGalleryWindow and main *)

Module MainGalleryWindowFacts.
Import MainGalleryWindow Wiring.

Section WithImages.
Context {QImage : Type} `{!QtImage QImage}.
Implicit Types (w : t (QImage := QImage)) (fx : list (effect (QImage := QImage))).

Local Ltac all_harmless :=
  repeat (apply List.Forall_cons; [simpl; try exact I; try reflexivity; try assumption|]);
  try apply List.Forall_nil.

Lemma out_of_bounds_message_is_not_failure :
  "Failed to load or generate image."%string <> "Image ID out of bounds."%string.
Proof. discriminate. Qed.

Lemma updateImageDisplay_harmless count image w :
  Forall (harmless count) (updateImageDisplay image w).
Proof. unfold updateImageDisplay. destruct (isNull image); all_harmless. Qed.

Lemma receive_harmless count s w :
  (forall id, s <> ImageLoader.loadingError id "Image ID out of bounds."%string) ->
  Forall (harmless count) (receive s w).
Proof.
  intros Hs. unfold receive. apply List.Forall_cons.
  - destruct s as [id image | id msg]; simpl; [exact I|].
    intros ->. exact (Hs id eq_refl).
  - destruct s as [id image | id msg].
    + unfold onImageLoaded.
      destruct (id =? _); [apply updateImageDisplay_harmless | apply List.Forall_nil].
    + unfold onLoadingError. apply Forall_app. split.
      * destruct (id =? _); all_harmless.
      * all_harmless.
Qed.

Lemma wired_with_loader count p w :
  ImageLoader.imageCount (ImageLoader.self p) = count ->
  wired count w -> wired count (with_loader p w).
Proof.
  intros Hp (H1 & H2 & H3 & H4 & H5). unfold wired. simpl. tauto.
Qed.

Lemma requests_app fx1 fx2 : requests (fx1 ++ fx2) = requests fx1 ++ requests fx2.
Proof.
  induction fx1 as [|e fx1 IH]; [reflexivity|].
  destruct e; simpl; rewrite IH; reflexivity.
Qed.

Lemma requests_receive s w : requests (receive s w) = [].
Proof.
  unfold receive. destruct s as [id image | id msg]; simpl.
  - unfold onImageLoaded, updateImageDisplay.
    destruct (id =? _); [destruct (isNull image)|]; reflexivity.
  - unfold onLoadingError. destruct (id =? _); reflexivity.
Qed.

Lemma loadImageAsync_in_bounds_cases id (p : ImageLoader.process (QImage := QImage)) :
  ImageLoader.out_of_bounds id (ImageLoader.self p) = false ->
  (exists image, ImageLoader.loadImageAsync id p = (p, [ImageLoader.imageLoaded id image])) \/
  ImageLoader.loadImageAsync id p =
    (ImageLoader.mkProcess (ImageLoader.self p) (ImageLoader.timers p ++ [id]), []).
Proof.
  intros Hb. unfold ImageLoader.loadImageAsync. rewrite Hb.
  destruct (ImageLoader.cached id (ImageLoader.self p)); eauto.
Qed.

Lemma call_loadImageAsync_wired count id w :
  wired count w -> 0 <= id < count ->
  wired count (fst (call_loadImageAsync id w)) /\
  Forall (harmless count) (snd (call_loadImageAsync id w)) /\
  requests (snd (call_loadImageAsync id w)) = [id].
Proof.
  intros Hw Hid. pose proof Hw as (Hc & Hn & _).
  assert (Hb : ImageLoader.out_of_bounds id (ImageLoader.self (m_imageLoader w)) = false).
  { unfold ImageLoader.out_of_bounds. rewrite Hn. apply orb_false_iff. split.
    - apply Z.ltb_ge. lia.
    - rewrite Z.geb_leb. apply Z.leb_gt. lia. }
  unfold call_loadImageAsync.
  destruct (loadImageAsync_in_bounds_cases id (m_imageLoader w) Hb) as [[image ->] | ->].
  - cbn [fst snd flat_map]. rewrite app_nil_r.
    split; [now apply wired_with_loader|]. split.
    + apply List.Forall_cons; [exact Hid|].
      apply receive_harmless. discriminate.
    + cbn [requests]. rewrite requests_receive. reflexivity.
  - cbn [fst snd flat_map].
    split; [now apply wired_with_loader|]. split.
    + apply List.Forall_cons; [exact Hid | apply List.Forall_nil].
    + reflexivity.
Qed.

Lemma onImageIdChanged_wired count newId w :
  wired count w -> 0 <= newId < count ->
  wired count (fst (onImageIdChanged newId w)) /\
  Forall (harmless count) (snd (onImageIdChanged newId w)) /\
  requests (snd (onImageIdChanged newId w)) = [newId] /\
  m_uiNavigator (fst (onImageIdChanged newId w)) = m_uiNavigator w.
Proof.
  intros Hw Hid.
  destruct (call_loadImageAsync_wired count newId w Hw Hid) as (H1 & H2 & H3).
  assert (Hnav : m_uiNavigator (fst (call_loadImageAsync newId w)) = m_uiNavigator w).
  { unfold call_loadImageAsync.
    destruct (ImageLoader.loadImageAsync newId (m_imageLoader w)). reflexivity. }
  unfold onImageIdChanged.
  destruct (call_loadImageAsync newId w) as [w' fx']. simpl in *.
  destruct Hw as (_ & _ & _ & Hm & _).
  split; [exact H1|]. split; [|split; [exact H3 | exact Hnav]].
  apply List.Forall_cons; [exact I|].
  assert (Hgt : (m_maxImageId w >? 0) = (count >? 1)).
  { rewrite Hm. destruct (Z.gtb_spec (count - 1) 0), (Z.gtb_spec count 1);
      try reflexivity; lia. }
  apply List.Forall_cons; [exact Hgt|].
  apply List.Forall_cons; [exact Hgt|].
  exact H2.
Qed.

Lemma call_loadImageAsync_requests id w :
  requests (snd (call_loadImageAsync id w)) = [id] /\
  m_uiNavigator (fst (call_loadImageAsync id w)) = m_uiNavigator w /\
  m_maxImageId (fst (call_loadImageAsync id w)) = m_maxImageId w.
Proof.
  unfold call_loadImageAsync.
  destruct (ImageLoader.loadImageAsync id (m_imageLoader w)) as [p out].
  cbn [fst snd requests]. split; [|split; reflexivity]. f_equal.
  induction out as [|s out IH]; [reflexivity|].
  cbn [flat_map]. rewrite requests_app, requests_receive, IH. reflexivity.
Qed.

Lemma wired_in_bounds count w :
  wired count w -> UINavigator.in_bounds (m_uiNavigator w).
Proof.
  intros (Hc & _ & Hm & _ & Hcur). unfold UINavigator.in_bounds.
  rewrite Hm. lia.
Qed.

Lemma wired_with_navigator count n w :
  UINavigator.m_maxImageId n = count - 1 ->
  0 <= UINavigator.m_currentImageId n <= count - 1 ->
  wired count w -> wired count (with_navigator n w).
Proof.
  intros Hm Hc (H1 & H2 & H3 & H4 & H5). unfold wired. simpl. tauto.
Qed.

Lemma notify_one newId w :
  notify [UINavigator.imageIdChanged newId] w =
    (fst (onImageIdChanged newId w), snd (onImageIdChanged newId w)).
Proof.
  cbn [notify]. destruct (onImageIdChanged newId w) as [w1 fx1].
  cbn [fst snd]. rewrite app_nil_r. reflexivity.
Qed.

Lemma click_wired count w :
  wired count w ->
  (wired count (fst (on_nextButton_clicked w)) /\
   Forall (harmless count) (snd (on_nextButton_clicked w))) /\
  (wired count (fst (on_prevButton_clicked w)) /\
   Forall (harmless count) (snd (on_prevButton_clicked w))).
Proof.
  intros Hw. pose proof (wired_in_bounds count w Hw) as Hb.
  pose proof Hw as (Hc & _ & Hm & _ & Hcur).
  split.
  - unfold on_nextButton_clicked.
    pose proof (UINavigatorFacts.next_keeps_in_bounds _ Hb) as Hb'.
    rewrite (UINavigatorFacts.next_in_bounds_eq _ Hb) in *. cbn [UINavigator.post UINavigator.emitted] in *.
    destruct Hb' as [Hcur' _]. cbn in Hcur'.
    rewrite notify_one. cbn [fst snd].
    set (new := (UINavigator.m_currentImageId (m_uiNavigator w) + 1)
                `mod` (UINavigator.m_maxImageId (m_uiNavigator w) + 1)) in *.
    assert (Hw' : wired count (with_navigator (UINavigator.mk new (UINavigator.m_maxImageId (m_uiNavigator w))) w)).
    { apply wired_with_navigator; [exact Hm | cbn; lia | exact Hw]. }
    destruct (onImageIdChanged_wired count new _ Hw') as (H1 & H2 & _); [lia|].
    split; assumption.
  - unfold on_prevButton_clicked.
    pose proof (UINavigatorFacts.previous_keeps_in_bounds _ Hb) as Hb'.
    rewrite (UINavigatorFacts.previous_in_bounds_eq _ Hb) in *. cbn [UINavigator.post UINavigator.emitted] in *.
    destruct Hb' as [Hcur' _]. cbn in Hcur'.
    rewrite notify_one. cbn [fst snd].
    set (new := if UINavigator.m_currentImageId (m_uiNavigator w) =? 0
                then UINavigator.m_maxImageId (m_uiNavigator w)
                else UINavigator.m_currentImageId (m_uiNavigator w) - 1) in *.
    assert (Hw' : wired count (with_navigator (UINavigator.mk new (UINavigator.m_maxImageId (m_uiNavigator w))) w)).
    { apply wired_with_navigator; [exact Hm | cbn; lia | exact Hw]. }
    destruct (onImageIdChanged_wired count new _ Hw') as (H1 & H2 & _); [lia|].
    split; assumption.
Qed.

Lemma timeout_wired count w :
  wired count w ->
  wired count (fst (timeout w)) /\ Forall (harmless count) (snd (timeout w)).
Proof.
  intros Hw. unfold timeout.
  destruct (ImageLoader.timers (m_imageLoader w)) as [|id rest].
  - split; [exact Hw | apply List.Forall_nil].
  - pose proof (ImageLoaderRuns.deferred_config id (ImageLoader.self (m_imageLoader w)))
      as (_ & Hm & _ & Hp).
    pose proof (ImageLoaderRuns.deferred_cases id (ImageLoader.self (m_imageLoader w)))
      as Hcases.
    destruct (ImageLoader.deferred id (ImageLoader.self (m_imageLoader w))) as [l out].
    cbn [fst snd] in *. split.
    + apply wired_with_loader; [|exact Hw]. cbn.
      rewrite (ImageLoaderRuns.imageCount_config _ l Hm Hp).
      destruct Hw as (_ & Hn & _). exact Hn.
    + destruct Hcases as [(_ & -> & _) | (_ & Heq)].
      * cbn [flat_map]. rewrite app_nil_r. apply receive_harmless. discriminate.
      * injection Heq as _ ->. cbn [flat_map]. rewrite app_nil_r.
        apply receive_harmless. intros id0 Hx.
        injection Hx as _ Hmsg. discriminate Hmsg.
Qed.

Lemma run_wired count es : forall w,
  wired count w ->
  wired count (fst (run es w)) /\ Forall (harmless count) (snd (run es w)).
Proof.
  induction es as [|e es IH]; intros w Hw; cbn [run].
  - split; [exact Hw | apply List.Forall_nil].
  - assert (He : wired count (fst (handle e w)) /\
                 Forall (harmless count) (snd (handle e w))).
    { destruct e; cbn [handle].
      - apply (click_wired count w Hw).
      - apply (click_wired count w Hw).
      - now apply timeout_wired.
      - split; [|apply List.Forall_nil]. exact Hw. }
    destruct (handle e w) as [w1 fx1]. cbn [fst snd] in He.
    destruct He as [Hw1 Hfx1]. specialize (IH w1 Hw1).
    destruct (run es w1) as [w2 fx2]. cbn [fst snd] in *.
    split; [tauto|]. apply Forall_app. tauto.
Qed.

Lemma main_start applicationDirPath (found : list string) frame :
  Z.of_nat (length found) <= Int.INT_MAX ->
  let count := Z.max (Z.of_nat (length found)) 15 in
  m_uiNavigator (fst (main applicationDirPath found frame)) = UINavigator.mk 0 (count - 1) /\
  wired count (fst (main applicationDirPath found frame)) /\
  Forall (harmless count) (snd (main applicationDirPath found frame)) /\
  requests (snd (main applicationDirPath found frame)) = [0].
Proof.
  intros Hlen count. unfold main. cbv zeta.
  set (l := ImageLoader.ctor _ _ _ _ _).
  assert (Hcount : ImageLoader.imageCount l = count).
  { unfold ImageLoader.imageCount, ImageLoader.size, l, MAX_GALLERY_IMAGES. cbn.
    apply IntFacts.wrap_id. unfold Int.in_range, Int.INT_MIN, Int.INT_MAX in *. lia. }
  assert (Hrange : 15 <= count <= Int.INT_MAX) by (unfold Int.INT_MAX in *; lia).
  rewrite Hcount.
  rewrite (IntFacts.sub_one count) by lia.
  assert (Hnav : UINavigator.post (UINavigator.setMaxImageId (count - 1)
                                      (UINavigator.ctor 0 (count - 1))) =
                 UINavigator.mk 0 (count - 1)).
  { unfold UINavigator.ctor, UINavigator.setMaxImageId. cbn.
    destruct (Z.gtb_spec 0 (count - 1)); [lia|]. cbn.
    destruct (Z.ltb_spec (count - 1) 0); [lia|].
    rewrite Z.eqb_refl. reflexivity. }
  rewrite Hnav. unfold ctor. cbn [UINavigator.currentImageId UINavigator.maxImageId
                                     UINavigator.m_currentImageId UINavigator.m_maxImageId].
  set (w := mk _ _ _ _).
  assert (Hw : wired count w).
  { unfold wired, w. cbn. repeat split; try assumption; try lia. }
  destruct (call_loadImageAsync_wired count 0 w Hw) as (H1 & H2 & H3); [lia|].
  destruct (call_loadImageAsync_requests 0 w) as (_ & Hn & _).
  destruct (call_loadImageAsync 0 w) as [w' fx]. cbn [fst snd] in *.
  split; [exact Hn|]. split; [exact H1|].
  assert (Hgt : (count - 1 >? 0) = (count >? 1)).
  { destruct (Z.gtb_spec (count - 1) 0), (Z.gtb_spec count 1); try reflexivity; lia. }
  split.
  - unfold w at 1 2. cbn [m_maxImageId updateIdLabel updateNavigationButtons app].
    apply List.Forall_cons; [exact I|].
    apply List.Forall_cons; [exact Hgt|].
    apply List.Forall_cons; [exact Hgt|].
    apply Forall_app. split; [exact H2|].
    unfold setupUiIcons. repeat (apply List.Forall_cons; [exact I|]). apply List.Forall_nil.
  - cbn [updateIdLabel updateNavigationButtons app requests].
    rewrite requests_app, H3. reflexivity.
Qed.

(** X22.  In a window wired like the one of main -- the loader counts at
    least one image, and the navigator and the window hold that count
    minus one as the maximum id, with the current id in range -- whatever
    buttons are clicked, timers fire and sizes change, the wiring stays,
    every id requested from the loader is below the count, the loader
    never answers with the bounds error, and the buttons are enabled at
    every update exactly if there is more than one image. *)
Theorem wired_window_stays_in_bounds count es w :
  wired count w ->
  wired count (fst (run es w)) /\ Forall (harmless count) (snd (run es w)).
Proof. apply run_wired. Qed.

(** X23.  main() with any number of image files found leaves a window
    whose navigator is at id 0 with maximum max(found, 15) - 1, and whose
    one request so far is for id 0.  From then on, through any clicks and
    timers, every request is for an id the loader counts, no "Image ID
    out of bounds." error is received, and both buttons are enabled at
    every update. *)
Theorem main_never_leaves_the_gallery applicationDirPath (found : list string) frame es :
  Z.of_nat (length found) <= Int.INT_MAX ->
  let count := Z.max (Z.of_nat (length found)) 15 in
  let started := main applicationDirPath found frame in
  m_uiNavigator (fst started) = UINavigator.mk 0 (count - 1) /\
  requests (snd started) = [0] /\
  wired count (fst (run es (fst started))) /\
  Forall (harmless count) (snd started ++ snd (run es (fst started))) /\
  (count >? 1) = true.
Proof.
  intros Hlen count started.
  destruct (main_start applicationDirPath found frame Hlen) as (H1 & H2 & H3 & H4).
  fold count in H1, H2, H3. fold started in H1, H2, H3, H4.
  destruct (run_wired count es (fst started) H2) as [H5 H6].
  split; [exact H1|]. split; [exact H4|]. split; [exact H5|].
  split; [apply Forall_app; tauto|].
  apply Z.gtb_lt. lia.
Qed.

(** X24.  With 0 <= currentId <= maxId in the navigator, a click on the
    next button makes exactly one request to the loader, for
    (currentId + 1) mod (maxId + 1), and a click on the previous button
    exactly one, for (currentId - 1) mod (maxId + 1); in both cases the
    first thing the window does is to write "ID: <new id>/<the maximum
    it read at construction>" into the id label.  With maxId < 0 a click
    changes nothing and requests nothing. *)
Theorem click_requests_the_neighbour w :
  let n := m_uiNavigator w in
  (UINavigator.in_bounds n ->
     let following := (UINavigator.m_currentImageId n + 1) mod (UINavigator.m_maxImageId n + 1) in
     let preceding := (UINavigator.m_currentImageId n - 1) mod (UINavigator.m_maxImageId n + 1) in
     requests (snd (on_nextButton_clicked w)) = [following] /\
     hd_error (snd (on_nextButton_clicked w)) =
       Some (idLabel_setText ("ID: " +:+ number following +:+ "/" +:+ number (m_maxImageId w))) /\
     m_uiNavigator (fst (on_nextButton_clicked w)) =
       UINavigator.mk following (UINavigator.m_maxImageId n) /\
     requests (snd (on_prevButton_clicked w)) = [preceding] /\
     hd_error (snd (on_prevButton_clicked w)) =
       Some (idLabel_setText ("ID: " +:+ number preceding +:+ "/" +:+ number (m_maxImageId w))) /\
     m_uiNavigator (fst (on_prevButton_clicked w)) =
       UINavigator.mk preceding (UINavigator.m_maxImageId n)) /\
  (UINavigator.m_maxImageId n < 0 ->
     snd (on_nextButton_clicked w) = [] /\ snd (on_prevButton_clicked w) = [] /\
     m_uiNavigator (fst (on_nextButton_clicked w)) = n /\
     m_uiNavigator (fst (on_prevButton_clicked w)) = n).
Proof.
  cbv zeta. split.
  - intros Hb.
    assert (Hgen : forall newId w0,
              requests (snd (onImageIdChanged newId w0)) = [newId] /\
              hd_error (snd (onImageIdChanged newId w0)) =
                Some (idLabel_setText ("ID: " +:+ number newId +:+ "/" +:+ number (m_maxImageId w0))) /\
              m_uiNavigator (fst (onImageIdChanged newId w0)) = m_uiNavigator w0).
    { intros newId w0. unfold onImageIdChanged.
      destruct (call_loadImageAsync_requests newId w0) as (Hr & Hn & _).
      destruct (call_loadImageAsync newId w0) as [w' fx]. cbn [fst snd] in *.
      split; [|split; [reflexivity | exact Hn]].
      cbn [updateIdLabel updateNavigationButtons app requests]. exact Hr. }
    unfold on_nextButton_clicked, on_prevButton_clicked.
    pose proof (UINavigatorWalks.previous_as_mod _ Hb) as Hprev.
    rewrite (UINavigatorFacts.next_in_bounds_eq _ Hb).
    rewrite (UINavigatorFacts.previous_in_bounds_eq _ Hb) in *.
    cbn [UINavigator.post UINavigator.emitted] in *.
    rewrite !notify_one. cbn [fst snd].
    injection Hprev as Hprev. rewrite Hprev.
    match goal with |- context [onImageIdChanged ?i ?w0] =>
      destruct (Hgen i w0) as (A1 & A2 & A3) end.
    match goal with |- context [onImageIdChanged ((_ - 1) `mod` _) ?w0] =>
      destruct (Hgen ((UINavigator.m_currentImageId (m_uiNavigator w) - 1)
                      `mod` (UINavigator.m_maxImageId (m_uiNavigator w) + 1)) w0)
        as (B1 & B2 & B3) end.
    cbn [with_navigator m_maxImageId m_uiNavigator] in A2, A3, B2, B3.
    repeat split; assumption.
  - intros Hneg.
    destruct (UINavigatorFacts.navigation_without_images _ Hneg) as [Hn Hp].
    unfold on_nextButton_clicked, on_prevButton_clicked. rewrite Hn, Hp.
    cbn. repeat split; reflexivity.
Qed.

(** X25.  The size updateImageDisplay scales a pixmap to is never empty.
    For a frame of non-negative [int] width and height it is the frame
    less 20 pixels each way when the frame is more than 20 pixels each
    way, and 800 x 600 otherwise. *)
Theorem targetSize_never_empty frame :
  QSize_isEmpty (targetSize frame) = false /\
  (0 <= width frame <= Int.INT_MAX -> 0 <= height frame <= Int.INT_MAX ->
     targetSize frame =
       if (20 <? width frame) && (20 <? height frame)
       then mkQSize (width frame - 20) (height frame - 20)
       else mkQSize 800 600).
Proof.
  unfold targetSize. cbv zeta. split.
  - destruct (QSize_isEmpty _ || _ || _) eqn:E; [reflexivity|].
    apply orb_false_iff in E. destruct E as [E _].
    apply orb_false_iff in E. destruct E as [E _]. exact E.
  - intros Hw Hh. unfold Int.sub, Int.INT_MAX in *.
    rewrite !IntFacts.wrap_id by (unfold Int.in_range, Int.INT_MIN, Int.INT_MAX; lia).
    unfold QSize_isEmpty. cbn [width height].
    destruct (Z.ltb_spec (width frame - 20) 1), (Z.ltb_spec (height frame - 20) 1),
             (Z.leb_spec (width frame - 20) 0), (Z.leb_spec (height frame - 20) 0),
             (Z.ltb_spec 20 (width frame)), (Z.ltb_spec 20 (height frame));
      try lia; reflexivity.
Qed.

(** X26.  When the oldest timer fires for an id whose image and scaled
    image are not null, the window receives imageLoaded for that id and
    the timer is gone.  If the id is the navigator's current id, the
    scaled image is put on the image label, at the target size of the
    frame; if it is not, no widget is touched.  Either way the image is in
    the cache afterwards when the loader has a cache. *)
Theorem completion_shown_only_if_current id rest w :
  ImageLoader.timers (m_imageLoader w) = id :: rest ->
  isNull (ImageLoader.obtain id (ImageLoader.self (m_imageLoader w))) = false ->
  isNull (Delivery.delivered id (ImageLoader.self (m_imageLoader w))) = false ->
  let image := Delivery.delivered id (ImageLoader.self (m_imageLoader w)) in
  ImageLoader.timers (m_imageLoader (fst (timeout w))) = rest /\
  (id = UINavigator.m_currentImageId (m_uiNavigator w) ->
     snd (timeout w) =
       [Received (ImageLoader.imageLoaded id image);
        imageLabel_setPixmap_scaled image (targetSize (imageFrame w));
        imageLabel_setAlignment_AlignCenter;
        imageLabel_setText ""]) /\
  (id <> UINavigator.m_currentImageId (m_uiNavigator w) ->
     snd (timeout w) = [Received (ImageLoader.imageLoaded id image)]) /\
  (ImageLoader.m_imageCache (ImageLoader.self (m_imageLoader w)) <> None ->
     ImageLoader.cached id (ImageLoader.self (m_imageLoader (fst (timeout w)))) = true).
Proof.
  intros Ht Ho Hd. cbv zeta. unfold timeout. rewrite Ht.
  destruct (ImageLoaderRuns.deferred_cases id (ImageLoader.self (m_imageLoader w)))
    as [(_ & Hs & Hc) | (Hn & _)]; [|congruence].
  destruct (ImageLoader.deferred id (ImageLoader.self (m_imageLoader w))) as [l out].
  cbn [fst snd] in *. subst out.
  cbn [flat_map with_loader m_imageLoader ImageLoader.timers ImageLoader.self].
  unfold receive, onImageLoaded, updateImageDisplay, UINavigator.currentImageId.
  cbn [with_loader m_uiNavigator imageFrame]. rewrite Hd, !app_nil_r.
  split; [reflexivity|]. split; [|split].
  - intros ->. rewrite Z.eqb_refl. reflexivity.
  - intros Hne. apply Z.eqb_neq in Hne. rewrite Hne. reflexivity.
  - intros Hsome. unfold ImageLoader.cached. rewrite Hc.
    destruct (ImageLoader.m_imageCache (ImageLoader.self (m_imageLoader w))) as [c|];
      [|congruence].
    cbn. apply ImageCacheFacts.contains_true.
    rewrite (ImageCacheFacts.setImage_stores _ _ _ Hd). eauto.
Qed.

End WithImages.

Import Examples Examples2.

Lemma wired_window_stays_in_bounds_witness :
  wired 15 (fst (run [ClickNext; TimerFires; ClickPrev; Resize hd_size; TimerFires]
                     (fst (main "/opt/gallery/bin" [] hd_size)))) /\
  Forall (harmless 15)
    (snd (run [ClickNext; TimerFires; ClickPrev; Resize hd_size; TimerFires]
              (fst (main "/opt/gallery/bin" [] hd_size)))).
Proof.
  apply (wired_window_stays_in_bounds 15).
  vm_compute. repeat split; discriminate.
Defined.

Lemma main_never_leaves_the_gallery_witness :
  requests (snd (main "/opt/gallery/bin" ["a.png"; "b.png"; "c.png"]%string hd_size)) = [0].
Proof.
  refine (proj1 (proj2 (main_never_leaves_the_gallery "/opt/gallery/bin"
                          ["a.png"; "b.png"; "c.png"]%string hd_size
                          [ClickNext; TimerFires] _))).
  vm_compute. discriminate.
Defined.

Lemma completion_shown_only_if_current_witness :
  ImageLoader.timers (m_imageLoader (fst (timeout (fst (main "/opt/gallery/bin" [] hd_size))))) = [].
Proof.
  refine (proj1 (completion_shown_only_if_current 0 []
                   (fst (main "/opt/gallery/bin" [] hd_size)) _ _ _));
    reflexivity.
Defined.

End MainGalleryWindowFacts.

(** ** UINavigator: construction *)

Module UINavigatorCtor.
Import UINavigator.

(** X27.  Given a non-negative maxImageId, the constructor stores it and
    clamps the initial id into [0, maxImageId]: a negative id becomes 0,
    an id above the maximum becomes the maximum, and an id already in
    range is kept. *)
Theorem ctor_clamps_into_range initialImageId maxImageId :
  0 <= maxImageId ->
  m_maxImageId (ctor initialImageId maxImageId) = maxImageId /\
  m_currentImageId (ctor initialImageId maxImageId) =
    Z.min (Z.max 0 initialImageId) maxImageId /\
  0 <= m_currentImageId (ctor initialImageId maxImageId) <= maxImageId /\
  (0 <= initialImageId <= maxImageId ->
     m_currentImageId (ctor initialImageId maxImageId) = initialImageId).
Proof.
  intros Hm. unfold ctor. cbn.
  destruct (Z.ltb_spec initialImageId 0).
  - destruct (Z.gtb_spec 0 maxImageId); repeat split; lia.
  - destruct (Z.gtb_spec initialImageId maxImageId); repeat split; lia.
Qed.

Lemma ctor_clamps_into_range_witness :
  m_maxImageId (ctor 7 4) = 4 /\
  m_currentImageId (ctor 7 4) = Z.min (Z.max 0 7) 4 /\
  0 <= m_currentImageId (ctor 7 4) <= 4 /\
  (0 <= 7 <= 4 -> m_currentImageId (ctor 7 4) = 7).
Proof. apply (ctor_clamps_into_range 7 4). lia. Defined.

End UINavigatorCtor.
